(** * Change-impact analyzer: dependency graph construction and impact
      propagation (scripts/analyzer/analyzer.ts)

    A shallow embedding of [analyzeFileChanges], [buildDependencyTree],
    [resolveImportPath], [analyzeImpact] and [determineImpactReason], and
    of their caller, the script scripts/analyzer/index.ts with its
    [printTree].

    - JS strings are modelled by [string]; every literal the code compares
      against is ASCII, so code units and bytes agree on them.
    - A JS [Set<string>] that is only tested and extended ([processedFiles],
      [visited]) is a [gset string].  A [Map<string, Set<string>>] whose
      iteration order is observable ([dependencies], [exports]) is an
      association list in insertion order, its values insertion-ordered
      lists without repetition.
    - The recursion of [buildDependencyTree] and [analyzeImpact] is not
      structural: both take a fuel argument, and are proved to return for
      every fuel above an explicit bound, with a result that does not depend
      on the fuel.
    - [fs], [parser.parse] and [traverse.default] are collaborators.  A
      file is what the analyzer sees of them: whether it can be read and
      parsed, the nodes the traversal visits, in order, and the point at
      which the traversal throws, if it does.
    - Console output is not modelled.

    The file has two parts.  The first holds every definition: the
    embedding of the source, the vocabulary of the specification
    (direct dependents, the resolver as the specification words it,
    reachability, what a construction must have recorded), Node's [path]
    functions on POSIX and the sample projects.  The second holds the
    theory: laws of the containers, the resolver, the builder, the
    analyzer, and the properties claimed of them. *)

From Stdlib Require Import Ascii String List Arith Lia.
From stdpp Require Import base option list sets gmap strings.

Set Warnings "-register-all,-clear-no-such-hyp".

Local Open Scope string_scope.
Local Open Scope list_scope.
Local Open Scope nat_scope.
Local Open Scope stdpp_scope.

(** ** JavaScript values used by the analyzer *)

(** Truthiness of a string: every string but the empty one. *)
Definition truthy (s : string) : bool :=
  negb (String.eqb s "").

(** [s.startsWith(p)] *)
Definition startsWith (s p : string) : bool :=
  String.prefix p s.

(** [s.slice(n)] for [0 <= n] *)
Definition slice (n : nat) (s : string) : string :=
  String.substring n (String.length s - n) s.

(** [xs.join(sep)] *)
Definition join (sep : string) (xs : list string) : string :=
  String.concat sep xs.

(** ** [Set<string>] and [Map<string, Set<string>>] in insertion order *)

Module JsSet.
Definition t := list string.

Definition has (x : string) (s : t) : bool :=
  bool_decide (x ∈ s).

Definition add (x : string) (s : t) : t :=
  if has x s then s else s ++ [x].

(** The set obtained by adding the elements of [l] one after the other. *)
Definition of_list (l : list string) : t :=
  foldl (fun s x => add x s) [] l.
End JsSet.

Module JsMap.
Definition t := list (string * JsSet.t).

Definition keys (m : t) : list string := m.*1.

Fixpoint get (k : string) (m : t) : option JsSet.t :=
  match m with
  | [] => None
  | (k', v) :: m' => if String.eqb k k' then Some v else get k m'
  end.

(** [m.set(k, v)]: an existing key keeps its position, a new key goes
    to the end. *)
Fixpoint set (k : string) (v : JsSet.t) (m : t) : t :=
  match m with
  | [] => [(k, v)]
  | (k', v') :: m' =>
      if String.eqb k k' then (k', v) :: m' else (k', v') :: set k v m'
  end.

(** [m.get(k)?.add(x)]: nothing happens when the key is absent. *)
Fixpoint add_to (k x : string) (m : t) : t :=
  match m with
  | [] => []
  | (k', v') :: m' =>
      if String.eqb k k' then (k', JsSet.add x v') :: m'
      else (k', v') :: add_to k x m'
  end.
End JsMap.

(** ** The impact tree *)

Inductive DependencyNode : Type :=
  MkNode {
    file : string;
    changeType : string;
    reason : option string;
    children : list DependencyNode
  }.

(** [child.reason = r] *)
Definition set_reason (r : string) (n : DependencyNode) : DependencyNode :=
  MkNode (file n) (changeType n) (Some r) (children n).

(** All nodes of a tree, the root first, children left to right. *)
Fixpoint nodes (n : DependencyNode) : list DependencyNode :=
  n :: flat_map nodes (children n).

(** The nodes strictly below the root. *)
Definition descendants (n : DependencyNode) : list DependencyNode :=
  flat_map nodes (children n).

(** The nodes at depth [d]; the root is at depth 0. *)
Fixpoint level (d : nat) (n : DependencyNode) : list DependencyNode :=
  match d with
  | 0 => [n]
  | S d' => flat_map (level d') (children n)
  end.

(** ** Reason policy *)

Definition determineImpactReason
    (changedFile dependentFile changeType : string)
    (modifiedExports : list string) (exports : JsMap.t) : option string :=
  if String.eqb changeType "delete" then Some "File was deleted"
  else if String.eqb changeType "add" then Some "New file was added"
  else
    if String.eqb changeType "modify" && (0 <? length modifiedExports) then
      let fileExports := JsMap.get changedFile exports in
      let modifiedExportsExist :=
        existsb (fun exp =>
                   match fileExports with
                   | Some s => JsSet.has exp s
                   | None => false
                   end) modifiedExports in
      if modifiedExportsExist
      then Some ("Modified exports: " +:+ join ", " modifiedExports)
      else Some "File was modified"
    else Some "File was modified".

(** ** Impact analyzer *)

Section Impact.
Variable dependencies : JsMap.t.
Variable exports : JsMap.t.
Variable modifiedExports : list string.

(** The body of the [for ... of dependencies.entries()] loop of
    [analyzeImpact]; [rec] is the recursive call, which always passes
    the change type ["affected"]. *)
Fixpoint scan_dependents
    (rec : string -> gset string -> option (DependencyNode * gset string))
    (changedFile changeType : string)
    (entries : list (string * JsSet.t))
    (acc : list DependencyNode) (visited : gset string)
  : option (list DependencyNode * gset string) :=
  match entries with
  | [] => Some (acc, visited)
  | (f, deps) :: rest =>
      if JsSet.has changedFile deps && negb (bool_decide (f ∈ visited)) then
        let visited1 := {[f]} ∪ visited in
        match determineImpactReason changedFile f changeType
                modifiedExports exports with
        | Some r =>
            if truthy r then
              match rec f visited1 with
              | Some (childImpact, visited2) =>
                  scan_dependents rec changedFile changeType rest
                    (acc ++ [set_reason r childImpact]) visited2
              | None => None
              end
            else scan_dependents rec changedFile changeType rest acc visited1
        | None => scan_dependents rec changedFile changeType rest acc visited1
        end
      else scan_dependents rec changedFile changeType rest acc visited
  end.

Fixpoint analyzeImpact (fuel : nat) (changedFile changeType : string)
    (visited : gset string) : option (DependencyNode * gset string) :=
  match fuel with
  | 0 => None
  | S fuel' =>
      match scan_dependents
              (fun f v => analyzeImpact fuel' f "affected" v)
              changedFile changeType dependencies [] visited with
      | Some (cs, visited') =>
          Some (MkNode changedFile changeType None cs, visited')
      | None => None
      end
  end.

(** The number of graph keys outside the visited set: the measure of
    [analyzeImpact]. *)
Definition unvisited (visited : gset string) : nat :=
  size ((list_to_set (JsMap.keys dependencies) : gset string) ∖ visited).
End Impact.

(** *** Vocabulary for the impact tree *)

(** [F] is a direct dependent of [C] in [g]: an entry for [F] whose import
    set contains [C]. *)
Definition direct_dependent (g : JsMap.t) (F C : string) : Prop :=
  exists deps, (F, deps) ∈ g /\ C ∈ deps.

(** A non-root node as the analyzer labels it. *)
Definition affected_with_reason (n : DependencyNode) : Prop :=
  changeType n = "affected" /\ exists r, reason n = Some r /\ r <> "".

(** [c] is a subtree built from the visited set [v], leaving [v']: its
    files below the root are pairwise distinct, new, and now in [v']. *)
Definition fresh_subtree (v : gset string) (c : DependencyNode)
    (v' : gset string) : Prop :=
  v ⊆ v' /\ NoDup (file <$> descendants c)
  /\ forall x, x ∈ file <$> descendants c -> x ∈ v' /\ x ∉ v.



(** ** The Source Inspector and the file system

    [parser.parse] and [traverse] are collaborators; what the analyzer
    sees of a parsed file is the sequence of import and export
    declarations, in the order [traverse] visits them, and the point, if
    any, at which [traverse.default] throws. *)

Inductive Declaration : Type :=
  | VariableDeclaration (id0 : option string) (others : list (option string))
      (** [declarations[0].id.name] and the remaining declarators; the name
          is absent when the declarator binds a pattern *)
  | OtherDeclaration (id : option string).
      (** [declaration.id?.name] *)

Inductive Statement : Type :=
  | ImportDeclaration (source : string)
  | ExportNamedDeclaration (declaration : option Declaration)
  | ExportDefaultDeclaration
  | OtherStatement
  | TraverseThrows.
      (** the traversal stops here with an exception: the nodes listed
          after it are in the file but are never visited.  An exception
          raised before the first visit, as when the scope of the program
          is built, puts it first *)

Definition Ast := list Statement.

(** What a path names.  A regular file has three outcomes in
    [buildDependencyTree]: [RegularFile None] is a file that [fs.readFile]
    cannot read or [parser.parse] rejects; [RegularFile (Some ast)] with
    [TraverseThrows] in [ast] is a file that parses and whose traversal
    throws; [RegularFile (Some ast)] without it is a file inspected to the
    end.  [Directory] stands for anything [stats.isFile()] answers false
    for. *)
Inductive FsEntry : Type :=
  | Directory
  | RegularFile (parsed : option Ast).

(** Imports of a parsed file, in source order. *)
Definition import_sources (ast : Ast) : list string :=
  omap (fun s => match s with ImportDeclaration src => Some src | _ => None end)
       ast.

Definition throws_here (s : Statement) : bool :=
  match s with
  | TraverseThrows => true
  | _ => false
  end.

(** Whether the traversal of a parsed file throws. *)
Definition traversal_throws (ast : Ast) : bool := existsb throws_here ast.

(** The statements the traversal visits: all of them, or those before the
    point at which it throws. *)
Fixpoint visited_statements (ast : Ast) : Ast :=
  match ast with
  | [] => []
  | s :: rest => if throws_here s then [] else s :: visited_statements rest
  end.

Record BuildState : Type :=
  MkBuildState {
    dependencies : JsMap.t;
    exports : JsMap.t;
    processedFiles : gset string
  }.

(** The export name [ExportNamedDeclaration] records, if any. *)
Definition exportName (d : Declaration) : option string :=
  match d with
  | VariableDeclaration id0 _ => id0
  | OtherDeclaration id => id
  end.

(** The name an export declaration records, if any. *)
Definition export_of (s : Statement) : option string :=
  match s with
  | ExportNamedDeclaration (Some d) =>
      match exportName d with
      | Some name => if truthy name then Some name else None
      | None => None
      end
  | ExportDefaultDeclaration => Some "default"
  | _ => None
  end.

(** Export names of a parsed file, in source order. *)
Definition export_names (ast : Ast) : list string := omap export_of ast.

(** Invariant of a construction: only processed files have entries, and no
    file has two. *)
Definition wf (st : BuildState) : Prop :=
  (forall k, k ∈ JsMap.keys (dependencies st) -> k ∈ processedFiles st)
  /\ (forall k, k ∈ JsMap.keys (exports st) -> k ∈ processedFiles st)
  /\ NoDup (JsMap.keys (dependencies st))
  /\ NoDup (JsMap.keys (exports st)).

Section Build.
(** [process.cwd()] and the functions of Node's [path] module. *)
Variable cwd : string.
Variable path_resolve : list string -> string.
Variable path_dirname : string -> string.
Variable path_join : string -> string -> string.
(** The project tree, unchanged during a run. *)
Variable fs : gmap string FsEntry.

(** [(await fs.stat(p)).isFile()], with [false] when [fs.stat] throws. *)
Definition stat_isFile (p : string) : bool :=
  match fs !! p with
  | Some (RegularFile _) => true
  | Some Directory => false
  | None => false
  end.

(** [fs.readFile] followed by [parser.parse]; [None] when either throws. *)
Definition read_and_parse (p : string) : option Ast :=
  match fs !! p with
  | Some (RegularFile (Some ast)) => Some ast
  | _ => None
  end.

(** *** Import resolver *)

Definition extensions : list string := [".ts"; ".tsx"; ".js"; ".jsx"].

Fixpoint try_extensions (resolvedPath : string) (exts : list string)
  : option string :=
  match exts with
  | [] => None
  | ext :: rest =>
      let pathWithExt := resolvedPath +:+ ext in
      if stat_isFile pathWithExt then Some pathWithExt
      else try_extensions resolvedPath rest
  end.

Fixpoint try_index (resolvedPath : string) (exts : list string)
  : option string :=
  match exts with
  | [] => None
  | ext :: rest =>
      let indexPath := path_join resolvedPath ("index" +:+ ext) in
      if stat_isFile indexPath then Some indexPath
      else try_index resolvedPath rest
  end.

Definition resolveImportPath (currentFile importPath : string)
  : option string :=
  if negb (startsWith importPath ".") && negb (startsWith importPath "@/")
  then None
  else
    let resolvedPath :=
      if startsWith importPath "@/"
      then path_resolve [cwd; "src"; slice 2 importPath]
      else path_resolve [path_dirname currentFile; importPath] in
    if stat_isFile resolvedPath then Some resolvedPath
    else
      match try_extensions resolvedPath extensions with
      | Some p => Some p
      | None => try_index resolvedPath extensions
      end.

(** *** Graph builder *)

(** The three visitors of [traverse.default(ast, ...)].  The visitors
    write to [exports] as they go, so what they have added stays when the
    traversal throws; [pendingImports] is returned only when it ends. *)
Fixpoint traverse (filePath : string) (ast : Ast)
    (pendingImports : list string) (exps : JsMap.t)
  : option (list string) * JsMap.t :=
  match ast with
  | [] => (Some pendingImports, exps)
  | TraverseThrows :: _ => (None, exps)
  | ImportDeclaration importSource :: rest =>
      traverse filePath rest (pendingImports ++ [importSource]) exps
  | ExportNamedDeclaration (Some d) :: rest =>
      match exportName d with
      | Some name =>
          if truthy name
          then traverse filePath rest pendingImports
                 (JsMap.add_to filePath name exps)
          else traverse filePath rest pendingImports exps
      | None => traverse filePath rest pendingImports exps
      end
  | ExportNamedDeclaration None :: rest =>
      traverse filePath rest pendingImports exps
  | ExportDefaultDeclaration :: rest =>
      traverse filePath rest pendingImports
        (JsMap.add_to filePath "default" exps)
  | OtherStatement :: rest =>
      traverse filePath rest pendingImports exps
  end.

(** The [for (const importSource of pendingImports)] loop; [rec] is the
    recursive call of [buildDependencyTree]. *)
Fixpoint process_imports (rec : string -> BuildState -> option BuildState)
    (filePath : string) (pendingImports : list string) (st : BuildState)
  : option BuildState :=
  match pendingImports with
  | [] => Some st
  | importSource :: rest =>
      match resolveImportPath filePath importSource with
      | Some importPath =>
          if truthy importPath then
            let st1 :=
              MkBuildState
                (JsMap.add_to filePath importPath (dependencies st))
                (exports st) (processedFiles st) in
            if negb (bool_decide (importPath ∈ processedFiles st1)) then
              match rec importPath st1 with
              | Some st2 => process_imports rec filePath rest st2
              | None => None
              end
            else process_imports rec filePath rest st1
          else process_imports rec filePath rest st
      | None => process_imports rec filePath rest st
      end
  end.

Fixpoint buildDependencyTree (fuel : nat) (filePath : string)
    (st : BuildState) : option BuildState :=
  match fuel with
  | 0 => None
  | S fuel' =>
      if bool_decide (filePath ∈ processedFiles st) then Some st
      else
        let processed := {[filePath]} ∪ processedFiles st in
        match read_and_parse filePath with
        | None =>
            (* the [catch] clause: the file is marked, nothing recorded *)
            Some (MkBuildState (dependencies st) (exports st) processed)
        | Some ast =>
            let deps := JsMap.set filePath [] (dependencies st) in
            let exps := JsMap.set filePath [] (exports st) in
            match traverse filePath ast [] exps with
            | (Some pendingImports, exps') =>
                process_imports (buildDependencyTree fuel') filePath
                  pendingImports (MkBuildState deps exps' processed)
            | (None, exps') =>
                (* the [catch] clause again: the two entries set before
                   the traversal stay, the import loop is not reached *)
                Some (MkBuildState deps exps' processed)
            end
        end
  end.

(** *** [analyzeFileChanges] *)

Definition initial_state : BuildState := MkBuildState [] [] ∅.

Definition analyzeFileChanges (fuel : nat)
    (entryFile changedFile ct : string)
    (modifiedExports : option (list string)) : option DependencyNode :=
  let modifiedExports := default [] modifiedExports in
  match buildDependencyTree fuel entryFile initial_state with
  | Some st =>
      let impactVisited : gset string := ∅ in
      match analyzeImpact (dependencies st) (exports st) modifiedExports
              fuel changedFile ct impactVisited with
      | Some (result, _) => Some result
      | None => None
      end
  | None => None
  end.

(** *** The resolver as the specification describes it *)

(** The specification's reading of the resolver: classify the specifier,
    rewrite it, list the candidates in probing order, take the first
    that is a regular file. *)
Definition alias_prefixed (specifier : string) : bool :=
  startsWith specifier "@/".

Definition relative (specifier : string) : bool :=
  startsWith specifier ".".

Definition rewritten (currentFile specifier : string) : string :=
  if alias_prefixed specifier
  then path_resolve [cwd; "src"; slice 2 specifier]
  else path_resolve [path_dirname currentFile; specifier].

Definition candidates (p : string) : list string :=
  [p]
  ++ map (fun ext => p +:+ ext) [".ts"; ".tsx"; ".js"; ".jsx"]
  ++ map (fun ext => path_join p ("index" +:+ ext))
         [".ts"; ".tsx"; ".js"; ".jsx"].

Definition spec_resolve (currentFile specifier : string) : option string :=
  if alias_prefixed specifier || relative specifier
  then List.find stat_isFile (candidates (rewritten currentFile specifier))
  else None.

(** *** What a construction is expected to record *)

(** The edge an import specifier of [filePath] gives rise to. *)
Definition edge_of (filePath importSource : string) : option string :=
  match resolveImportPath filePath importSource with
  | Some importPath => if truthy importPath then Some importPath else None
  | None => None
  end.

Definition resolved_imports (filePath : string) (sources : list string)
  : list string :=
  omap (edge_of filePath) sources.

(** The imports of [filePath] the builder follows: the resolved ones
    when the traversal of the file ends, none when it throws. *)
Definition followed_imports (filePath : string) (ast : Ast) : list string :=
  if traversal_throws ast then []
  else resolved_imports filePath (import_sources ast).

(** Files reachable from the entry through imports of files that could
    be read, parsed and traversed to the end. *)
Inductive reachable (entryFile : string) : string -> Prop :=
  | reachable_entry : reachable entryFile entryFile
  | reachable_import f ast p :
      reachable entryFile f ->
      read_and_parse f = Some ast ->
      p ∈ followed_imports f ast ->
      reachable entryFile p.

(** The number of paths of the project outside the processed set: the
    measure of [buildDependencyTree]. *)
Definition unprocessed (st : BuildState) : nat :=
  size (dom fs ∖ processedFiles st).

(** What the maps hold for a file once its call has returned. *)
Definition recorded (st : BuildState) (f : string) : Prop :=
  match read_and_parse f with
  | Some ast =>
      JsMap.get f (dependencies st)
      = Some (JsSet.of_list (followed_imports f ast))
      /\ JsMap.get f (exports st)
         = Some (JsSet.of_list (export_names (visited_statements ast)))
      /\ forall p, p ∈ followed_imports f ast -> p ∈ processedFiles st
  | None =>
      JsMap.get f (dependencies st) = None
      /\ JsMap.get f (exports st) = None
  end.

(** Postcondition of a call that takes [st] to [st']: the invariant, a
    larger processed set, untouched entries for the files processed
    before, and complete entries for the files processed by the call. *)
Definition build_post (st st' : BuildState) : Prop :=
  wf st'
  /\ processedFiles st ⊆ processedFiles st'
  /\ (forall k, k ∈ processedFiles st ->
                JsMap.get k (dependencies st') = JsMap.get k (dependencies st)
                /\ JsMap.get k (exports st') = JsMap.get k (exports st))
  /\ (forall k, k ∈ processedFiles st' -> k ∉ processedFiles st ->
                recorded st' k).

(** [rec] behaves as a call of [buildDependencyTree] on an unprocessed
    file. *)
Definition rec_ok (rec : string -> BuildState -> option BuildState) : Prop :=
  forall p st st',
    rec p st = Some st' -> wf st -> p ∉ processedFiles st ->
    build_post st st' /\ p ∈ processedFiles st'.
End Build.

(** ** Node's [path] module on POSIX

    The theorems below hold for any [path.resolve], [path.dirname] and
    [path.join]; this instance is the one the examples run with.
    [resolve] and [join2] follow Node's documentation on absolute paths:
    empty and ["."] segments are dropped, [".."] removes the segment
    before it.  [dirname] follows Node's implementation, which cuts the
    path and normalises nothing. *)

Module Posix.
Fixpoint segments_from (s : string) (cur : list Ascii.ascii) : list string :=
  match s with
  | EmptyString => [string_of_list_ascii (rev cur)]
  | String c s' =>
      if Ascii.eqb c "/"%char
      then string_of_list_ascii (rev cur) :: segments_from s' []
      else segments_from s' (c :: cur)
  end.

Definition segments (s : string) : list string := segments_from s [].

(** [stack] holds the segments kept so far, the last one first. *)
Fixpoint normalize_segments (segs stack : list string) : list string :=
  match segs with
  | [] => rev stack
  | seg :: rest =>
      if String.eqb seg "" || String.eqb seg "." then
        normalize_segments rest stack
      else if String.eqb seg ".." then normalize_segments rest (tail stack)
      else normalize_segments rest (seg :: stack)
  end.

Definition normalize_absolute (p : string) : string :=
  "/" +:+ join "/" (normalize_segments (segments p) []).

(** [path.resolve(...paths)] with working directory [cwd]: a later
    absolute argument discards what precedes it. *)
Definition resolve (cwd : string) (paths : list string) : string :=
  normalize_absolute
    (fold_left (fun acc p => if startsWith p "/" then p else acc +:+ "/" +:+ p)
               paths cwd).

(** The scan of [path.dirname], on the characters after the first one,
    the last one first: trailing slashes are passed over, then the
    characters of the last segment, up to the slash before it. *)
Fixpoint drop_slashes (l : list Ascii.ascii) : list Ascii.ascii :=
  match l with
  | [] => []
  | c :: l' => if Ascii.eqb c "/"%char then drop_slashes l' else l
  end.

(** What precedes the first slash met, if there is one. *)
Fixpoint before_slash (l : list Ascii.ascii) : option (list Ascii.ascii) :=
  match l with
  | [] => None
  | c :: l' => if Ascii.eqb c "/"%char then Some l' else before_slash l'
  end.

(** [path.dirname(p)]: [p.slice(0, end)] for the index [end] the scan
    stops at; the first character is never looked at. *)
Definition dirname (p : string) : string :=
  match p with
  | EmptyString => "."
  | String c0 rest =>
      let hasRoot := Ascii.eqb c0 "/"%char in
      match before_slash (drop_slashes (rev (list_ascii_of_string rest))) with
      | None => if hasRoot then "/" else "."
      | Some before =>
          if hasRoot && (length before =? 0) then "//"
          else String c0 (string_of_list_ascii (rev before))
      end
  end.

(** [path.join(a, b)] for an absolute [a]. *)
Definition join2 (a b : string) : string :=
  normalize_absolute (a +:+ "/" +:+ b).
End Posix.

(** ** Sample projects *)

Module Examples.
Definition cwd : string := "/p".

Definition resolve :=
  resolveImportPath cwd (Posix.resolve cwd) Posix.dirname Posix.join2.
Definition build :=
  buildDependencyTree cwd (Posix.resolve cwd) Posix.dirname Posix.join2.
Definition run :=
  analyzeFileChanges cwd (Posix.resolve cwd) Posix.dirname Posix.join2.

(** [a.ts] and [b.ts] import each other. *)
Definition cycle : gmap string FsEntry :=
  list_to_map
    [("/p/a.ts", RegularFile (Some [ImportDeclaration "./b"]));
     ("/p/b.ts", RegularFile (Some [ImportDeclaration "./a"]))].

Definition cycle_graph : JsMap.t :=
  [("/p/a.ts", ["/p/b.ts"]); ("/p/b.ts", ["/p/a.ts"])].

Definition cycle_tree : DependencyNode :=
  MkNode "/p/a.ts" "modify" None
    [MkNode "/p/b.ts" "affected" (Some "File was modified")
       [MkNode "/p/a.ts" "affected" (Some "File was modified") []]].

(** [index.ts] imports [x.ts] and [y.ts]; both import [c.ts], and
    [y.ts] also imports [x.ts]. *)
Definition diamond : gmap string FsEntry :=
  list_to_map
    [("/p/index.ts",
      RegularFile (Some [ImportDeclaration "./x"; ImportDeclaration "./y"]));
     ("/p/x.ts", RegularFile (Some [ImportDeclaration "./c"]));
     ("/p/y.ts",
      RegularFile (Some [ImportDeclaration "./x"; ImportDeclaration "./c"]));
     ("/p/c.ts", RegularFile (Some [ExportDefaultDeclaration]))].

Definition diamond_graph : JsMap.t :=
  [("/p/index.ts", ["/p/x.ts"; "/p/y.ts"]);
   ("/p/x.ts", ["/p/c.ts"]);
   ("/p/c.ts", []);
   ("/p/y.ts", ["/p/x.ts"; "/p/c.ts"])].

Definition diamond_exports : JsMap.t :=
  [("/p/index.ts", []); ("/p/x.ts", []); ("/p/c.ts", ["default"]);
   ("/p/y.ts", [])].

Definition diamond_tree : DependencyNode :=
  MkNode "/p/c.ts" "delete" None
    [MkNode "/p/x.ts" "affected" (Some "File was deleted")
       [MkNode "/p/index.ts" "affected" (Some "File was modified") [];
        MkNode "/p/y.ts" "affected" (Some "File was modified") []]].

(** [index.ts] imports [a.ts], which exports [foo], a package, a file
    that does not parse and a directory with an index file. *)
Definition sample : gmap string FsEntry :=
  list_to_map
    [("/p/src/index.ts",
      RegularFile (Some [ImportDeclaration "./a"; ImportDeclaration "react";
                         ImportDeclaration "./broken";
                         ImportDeclaration "@/lib"]));
     ("/p/src/a.ts",
      RegularFile
        (Some [ExportNamedDeclaration
                 (Some (VariableDeclaration (Some "foo") [Some "bar"]))]));
     ("/p/src/broken.ts", RegularFile None);
     ("/p/src/lib", Directory);
     ("/p/src/lib/index.js",
      RegularFile (Some [ImportDeclaration "../a";
                         ExportDefaultDeclaration]))].

Definition sample_graph : JsMap.t :=
  [("/p/src/index.ts",
    ["/p/src/a.ts"; "/p/src/broken.ts"; "/p/src/lib/index.js"]);
   ("/p/src/a.ts", []);
   ("/p/src/lib/index.js", ["/p/src/a.ts"])].

Definition sample_exports : JsMap.t :=
  [("/p/src/index.ts", []); ("/p/src/a.ts", ["foo"]);
   ("/p/src/lib/index.js", ["default"])].

(** [index.ts] imports [t.ts], whose traversal throws before the first
    visit, [u.ts], whose traversal throws after its first export,
    [broken.ts], which does not parse, and [c.ts]; [t.ts] and [u.ts]
    import [b.ts], which nothing else imports. *)
Definition faulty : gmap string FsEntry :=
  list_to_map
    [("/p/index.ts",
      RegularFile (Some [ImportDeclaration "./t"; ImportDeclaration "./u";
                         ImportDeclaration "./broken";
                         ImportDeclaration "./c"]));
     ("/p/t.ts",
      RegularFile
        (Some [TraverseThrows; ImportDeclaration "./b";
               ExportNamedDeclaration
                 (Some (VariableDeclaration (Some "q") []))]));
     ("/p/u.ts",
      RegularFile
        (Some [ExportDefaultDeclaration; TraverseThrows;
               ImportDeclaration "./b";
               ExportNamedDeclaration
                 (Some (OtherDeclaration (Some "r")))]));
     ("/p/broken.ts", RegularFile None);
     ("/p/b.ts", RegularFile (Some [ExportDefaultDeclaration]));
     ("/p/c.ts", RegularFile (Some [ExportDefaultDeclaration]))].

Definition faulty_graph : JsMap.t :=
  [("/p/index.ts", ["/p/t.ts"; "/p/u.ts"; "/p/broken.ts"; "/p/c.ts"]);
   ("/p/t.ts", []); ("/p/u.ts", []); ("/p/c.ts", [])].

Definition faulty_exports : JsMap.t :=
  [("/p/index.ts", []); ("/p/t.ts", []); ("/p/u.ts", ["default"]);
   ("/p/c.ts", ["default"])].
End Examples.

(** ** Properties of the impact analyzer *)

(** ** More vocabulary for the impact tree *)

(** The tree with its labels erased: files and shape only. *)
Fixpoint skeleton (n : DependencyNode) : DependencyNode :=
  match n with
  | MkNode f _ _ cs => MkNode f "" None (map skeleton cs)
  end.

(** Every child of [m] imports the file of [m]. *)
Definition children_import_parent (g : JsMap.t) (m : DependencyNode) : Prop :=
  forall c, c ∈ children m -> direct_dependent g (file c) (file m).

(** [x] depends on [changedFile] through a chain of imports, no member of
    which ([x] included) is in [visited]. *)
Inductive impacted (g : JsMap.t) (visited : gset string)
    (changedFile : string) : string -> Prop :=
  | impacted_direct F :
      direct_dependent g F changedFile -> F ∉ visited ->
      impacted g visited changedFile F
  | impacted_step G F :
      impacted g visited changedFile G ->
      direct_dependent g F G -> F ∉ visited ->
      impacted g visited changedFile F.

(** ** The command line (scripts/analyzer/index.ts)

    [console.log] is modelled by the list of the lines printed, one
    element for every call.  The diagnostic lines of the analyzer itself
    are not part of it. *)

(** [s.split(sep)] for a separator of one character. *)
Fixpoint split_from (sep : Ascii.ascii) (s : string) (cur : list Ascii.ascii)
  : list string :=
  match s with
  | EmptyString => [string_of_list_ascii (rev cur)]
  | String c s' =>
      if Ascii.eqb c sep
      then string_of_list_ascii (rev cur) :: split_from sep s' []
      else split_from sep s' (c :: cur)
  end.

Definition split (sep : Ascii.ascii) (s : string) : list string :=
  split_from sep s [].

Fixpoint printTree (node : DependencyNode) (prefix : string) : list string :=
  match node with
  | MkNode f ct r cs =>
      [prefix +:+ f; prefix +:+ "├─ Change: " +:+ ct]
      ++ match r with
         | Some r' => if truthy r' then [prefix +:+ "├─ Reason: " +:+ r'] else []
         | None => []
         end
      ++ (if 0 <? length cs then
            (prefix +:+ "└─ Affected files:")
            :: (fix forEach (l : list DependencyNode) (index : nat)
                  : list string :=
                  match l with
                  | [] => []
                  | child :: rest =>
                      let isLast := index =? length cs - 1 in
                      printTree child
                        (prefix +:+ "    "
                         +:+ (if isLast then "└─ " else "├─ "))
                      ++ forEach rest (S index)
                  end) cs 0
          else [])
  end.

(** The [forEach] of [printTree] under a name: the children [l] of a node
    with [len] children, from position [index] on. *)
Definition printChildren (len : nat) (prefix : string)
  : list DependencyNode -> nat -> list string :=
  fix forEach (l : list DependencyNode) (index : nat) : list string :=
    match l with
    | [] => []
    | child :: rest =>
        let isLast := index =? len - 1 in
        printTree child
          (prefix +:+ "    " +:+ (if isLast then "└─ " else "├─ "))
        ++ forEach rest (S index)
    end.

(** The number of lines [printTree] prints for a node itself: its file,
    its change kind, its reason if it has one, and the heading of its
    children if it has any. *)
Definition own_lines (m : DependencyNode) : nat :=
  2
  + match reason m with
    | Some r => if truthy r then 1 else 0
    | None => 0
    end
  + (if 0 <? length (children m) then 1 else 0).

Module Cli.
(** [program.opts()]: an option that was not given is absent. *)
Record Options : Type :=
  MkOptions {
    entry : option string;
    file : option string;
    type : option string;
    exports : option string
  }.

(** What a run of the script ends in: [process.exit(code)] after the
    lines written with [console.error], or the lines [main] printed. *)
Inductive Outcome : Type :=
  | Exit (code : nat) (errors : list string)
  | Printed (lines : list string).

(** Truthiness of an option value. *)
Definition given (o : option string) : bool :=
  match o with
  | Some s => truthy s
  | None => false
  end.

Section Main.
Variable cwd : string.
Variable path_resolve : list string -> string.
Variable path_dirname : string -> string.
Variable path_join : string -> string -> string.
Variable fs : gmap string FsEntry.

(** The script from the check of the options on.  [None] stands for
    running out of fuel only. *)
Definition main (fuel : nat) (options : Options) : option Outcome :=
  if negb (given (entry options)) || negb (given (file options))
     || negb (given (type options))
  then Some (Exit 1 ["Missing required options"])
  else
    match analyzeFileChanges cwd path_resolve path_dirname path_join fs fuel
            (path_resolve [cwd; default "" (entry options)])
            (path_resolve [cwd; default "" (file options)])
            (default "" (type options))
            (Some match exports options with
                  | Some x => split ","%char x
                  | None => []
                  end) with
    | Some result =>
        Some (Printed ([String "010"%char "File Change Analysis Result:";
                        "==========================="]
                       ++ printTree result ""))
    | None => None
    end.
End Main.
End Cli.

Lemma truthy_nonempty (s : string) : truthy s = true <-> s <> "".
Proof.
  unfold truthy. rewrite negb_true_iff. split.
  - intros H ->. discriminate.
  - intros H. apply String.eqb_neq. exact H.
Qed.

Lemma JsSet_has_true (x : string) (s : JsSet.t) :
  JsSet.has x s = true <-> x ∈ s.
Proof. unfold JsSet.has. apply bool_decide_eq_true. Qed.

Lemma descendants_set_reason r n :
  descendants (set_reason r n) = descendants n.
Proof. reflexivity. Qed.

Lemma nodes_unfold n : nodes n = n :: descendants n.
Proof. destruct n; reflexivity. Qed.

Lemma elem_of_flat_map {A B} (f : A -> list B) (l : list A) (y : B) :
  y ∈ flat_map f l <-> exists x, x ∈ l /\ y ∈ f x.
Proof.
  rewrite list_elem_of_In, in_flat_map.
  split; intros (x & Hx & Hy); exists x; split; by apply list_elem_of_In.
Qed.

Lemma Forall_descendants (Q : DependencyNode -> Prop) cs :
  Forall (fun c => Q c /\ Forall Q (descendants c)) cs ->
  Forall Q (flat_map nodes cs).
Proof.
  induction 1 as [|c cs [Hc Hd] _ IH]; simpl; [constructor |].
  rewrite nodes_unfold. constructor; [done |]. by apply Forall_app.
Qed.

Lemma level_descendants k : forall n d,
  d ∈ level (S k) n -> d ∈ descendants n.
Proof.
  induction k as [|k IH]; intros n d; simpl.
  - rewrite elem_of_flat_map. intros (c & Hc & Hd).
    apply list_elem_of_singleton in Hd as ->.
    apply elem_of_flat_map. exists c. split; [done |].
    rewrite nodes_unfold. by left.
  - rewrite elem_of_flat_map. intros (c & Hc & Hd).
    apply IH in Hd. apply elem_of_flat_map. exists c. split; [done |].
    rewrite nodes_unfold. by right.
Qed.

Section ImpactFacts.
Variable dependencies : JsMap.t.
Variable exports : JsMap.t.
Variable modifiedExports : list string.

Abbreviation unvisited := (unvisited dependencies).

Abbreviation scan := (scan_dependents exports modifiedExports).
Abbreviation impact :=
  (analyzeImpact dependencies exports modifiedExports).

(** Every child the loop appends is a result of the recursive call on an
    unvisited direct dependent, relabelled with the reason computed at
    this level. *)
Lemma scan_dependents_Forall (P : DependencyNode -> Prop)
    rec changedFile changeType :
  forall entries acc visited cs visited',
    (forall f deps v child v' r,
        (f, deps) ∈ entries -> changedFile ∈ deps ->
        rec f v = Some (child, v') ->
        determineImpactReason changedFile f changeType
          modifiedExports exports = Some r ->
        truthy r = true ->
        P (set_reason r child)) ->
    Forall P acc ->
    scan rec changedFile changeType entries acc visited
      = Some (cs, visited') ->
    Forall P cs.
Proof.
  induction entries as [|[f deps] rest IH]; intros acc visited cs visited' Hrec Hacc Hs;
    simpl in Hs.
  - congruence.
  - assert (Hrest : forall f0 deps0 v child v' r,
               (f0, deps0) ∈ rest -> changedFile ∈ deps0 ->
               rec f0 v = Some (child, v') ->
               determineImpactReason changedFile f0 changeType
                 modifiedExports exports = Some r ->
               truthy r = true -> P (set_reason r child)).
    { intros ? ? ? ? ? ? Hin. apply Hrec. by right. }
    destruct (JsSet.has changedFile deps && negb (bool_decide (f ∈ visited)))
      eqn:Hc; [| by eapply IH].
    apply andb_true_iff in Hc as [Hhas _]. apply JsSet_has_true in Hhas.
    destruct (determineImpactReason changedFile f changeType
                modifiedExports exports) as [r|] eqn:Hr; [| by eapply IH].
    destruct (truthy r) eqn:Ht; [| by eapply IH].
    destruct (rec f ({[f]} ∪ visited)) as [[child v2]|] eqn:Hch; [| done].
    eapply IH; [exact Hrest | | exact Hs].
    apply Forall_app; split; [done |]. constructor; [| constructor].
    eapply Hrec; eauto. by left.
Qed.

(** The file of an [analyzeImpact] result is its first argument, its
    change type the one passed, and it has no reason. *)
Lemma analyzeImpact_root fuel changedFile ct visited n visited' :
  impact fuel changedFile ct visited = Some (n, visited') ->
  file n = changedFile /\ changeType n = ct /\ reason n = None.
Proof.
  destruct fuel as [|fuel]; simpl; [done |].
  destruct (scan _ _ _ _ _ _) as [[cs v]|]; [| done].
  intros [= <- <-]. done.
Qed.

Lemma analyzeImpact_children fuel changedFile ct visited n visited' :
  impact (S fuel) changedFile ct visited = Some (n, visited') ->
  scan (fun f v => impact fuel f "affected" v) changedFile ct
    dependencies [] visited = Some (children n, visited').
Proof.
  simpl. destruct (scan _ _ _ _ _ _) as [[cs v]|]; [| done].
  intros [= <- <-]. done.
Qed.

(** *** Fuel: more never changes a result *)

Lemma scan_dependents_mono rec1 rec2 changedFile ct :
  (forall f v r, rec1 f v = Some r -> rec2 f v = Some r) ->
  forall entries acc visited r,
    scan rec1 changedFile ct entries acc visited = Some r ->
    scan rec2 changedFile ct entries acc visited = Some r.
Proof.
  intros Hle. induction entries as [|[f deps] rest IH]; intros acc visited r;
    simpl; [done |].
  destruct (_ && _); [| apply IH].
  destruct (determineImpactReason _ _ _ _ _) as [rs|]; [| apply IH].
  destruct (truthy rs); [| apply IH].
  destruct (rec1 f _) as [[c v2]|] eqn:H1; [| done].
  rewrite (Hle _ _ _ H1). apply IH.
Qed.

Lemma analyzeImpact_fuel_mono fuel :
  forall fuel' changedFile ct visited r,
    fuel <= fuel' ->
    impact fuel changedFile ct visited = Some r ->
    impact fuel' changedFile ct visited = Some r.
Proof.
  induction fuel as [|fuel IH]; intros fuel' changedFile ct visited r Hle;
    [done |].
  destruct fuel' as [|fuel']; [lia |]. simpl.
  destruct (scan (fun f v => impact fuel f "affected" v) _ _ _ _ _)
    as [[cs v]|] eqn:Hs; [| done].
  intros <-.
  eapply scan_dependents_mono in Hs; [by rewrite Hs |].
  intros f v0 r0. apply IH. lia.
Qed.
(** A descent is made only with a visited set that has just grown by
    the file descended into. *)
Lemma scan_dependents_descends rec rec' changedFile ct :
  (forall f v, f ∉ v -> rec f ({[f]} ∪ v) = rec' f ({[f]} ∪ v)) ->
  forall entries acc visited,
    scan rec changedFile ct entries acc visited
    = scan rec' changedFile ct entries acc visited.
Proof.
  intros Heq. induction entries as [|[f deps] rest IH]; intros acc visited;
    simpl; [done |].
  destruct (_ && _) eqn:Hc; [| apply IH].
  apply andb_true_iff in Hc as [_ Hnv].
  apply negb_true_iff, bool_decide_eq_false in Hnv.
  destruct (determineImpactReason _ _ _ _ _) as [r|]; [| apply IH].
  destruct (truthy r); [| apply IH].
  rewrite Heq by done. destruct (rec' f _) as [[c v2]|]; [apply IH | done].
Qed.

(** *** Termination

    The measure is the number of graph keys outside the visited set.
    Every recursive call is made on a key that has just been added to
    the set, so the measure drops at each descent. *)

Lemma size_list_to_set_le (l : list string) :
  size (list_to_set l : gset string) <= length l.
Proof.
  induction l as [|x l IH].
  - by rewrite list_to_set_nil, size_empty.
  - rewrite list_to_set_cons, size_union_alt, size_singleton. simpl.
    assert (size ((list_to_set l : gset string) ∖ {[x]})
            <= size (list_to_set l : gset string))
      by (apply subseteq_size; set_solver).
    lia.
Qed.

Lemma unvisited_le_length visited : unvisited visited <= length dependencies.
Proof.
  unfold unvisited.
  etrans; [apply subseteq_size with (Y := list_to_set (JsMap.keys dependencies));
           set_solver |].
  etrans; [apply size_list_to_set_le |].
  unfold JsMap.keys. by rewrite length_fmap.
Qed.

Lemma unvisited_mono v v' : v ⊆ v' -> unvisited v' <= unvisited v.
Proof. intros Hsub. unfold unvisited. apply subseteq_size. set_solver. Qed.

Lemma unvisited_add f v :
  f ∈ JsMap.keys dependencies -> f ∉ v ->
  unvisited ({[f]} ∪ v) < unvisited v.
Proof.
  intros Hk Hv. unfold unvisited. apply subset_size.
  split; [set_solver |].
  intros Hsub. specialize (Hsub f). set_solver.
Qed.

Lemma scan_dependents_total n rec changedFile ct :
  (forall f v, unvisited v < n ->
               exists c v', rec f v = Some (c, v') /\ v ⊆ v') ->
  forall entries acc visited,
    entries ⊆ dependencies ->
    unvisited visited <= n ->
    exists cs visited',
      scan rec changedFile ct entries acc visited = Some (cs, visited')
      /\ visited ⊆ visited'.
Proof.
  intros Hrec. induction entries as [|[f deps] rest IH];
    intros acc visited Hsub Hm; simpl.
  - by eexists _, _.
  - assert (Hrest : rest ⊆ dependencies) by set_solver.
    assert (Hk : f ∈ JsMap.keys dependencies).
    { unfold JsMap.keys. apply list_elem_of_fmap. exists (f, deps).
      split; [done |]. apply Hsub. by left. }
    destruct (JsSet.has changedFile deps && negb (bool_decide (f ∈ visited)))
      eqn:Hc; [| by apply IH].
    apply andb_true_iff in Hc as [_ Hnv].
    apply negb_true_iff, bool_decide_eq_false in Hnv.
    pose proof (unvisited_add f visited Hk Hnv) as Hlt.
    assert (Hskip : exists cs visited',
               scan rec changedFile ct rest acc ({[f]} ∪ visited)
                 = Some (cs, visited') /\ visited ⊆ visited').
    { destruct (IH acc ({[f]} ∪ visited) Hrest) as (cs & v' & -> & Hv');
        [lia |]. eexists _, _. split; [done | set_solver]. }
    destruct (determineImpactReason _ _ _ _ _) as [r|]; [| exact Hskip].
    destruct (truthy r); [| exact Hskip].
    destruct (Hrec f ({[f]} ∪ visited)) as (c & v2 & -> & Hv2); [lia |].
    destruct (IH (acc ++ [set_reason r c]) v2 Hrest) as (cs & v' & -> & Hv').
    { pose proof (unvisited_mono _ _ Hv2). lia. }
    eexists _, _. split; [done | set_solver].
Qed.

Lemma analyzeImpact_total fuel :
  forall changedFile ct visited,
    unvisited visited < fuel ->
    exists n visited',
      impact fuel changedFile ct visited = Some (n, visited')
      /\ visited ⊆ visited'.
Proof.
  induction fuel as [|fuel IH]; intros changedFile ct visited Hm; [lia |].
  simpl.
  destruct (scan_dependents_total fuel
              (fun f v => impact fuel f "affected" v) changedFile ct)
    with (entries := dependencies) (acc := @nil DependencyNode)
         (visited := visited)
    as (cs & v' & -> & Hv'); [| done | lia | by eexists _, _].
  intros f v Hv. by apply IH.
Qed.
(** *** Labels of the nodes *)

Lemma analyzeImpact_descendants_affected fuel :
  forall changedFile ct visited n visited',
    impact fuel changedFile ct visited = Some (n, visited') ->
    Forall affected_with_reason (descendants n).
Proof.
  induction fuel as [|fuel IH]; intros changedFile ct visited n visited' Hi;
    [done |].
  apply analyzeImpact_children in Hi.
  apply Forall_descendants.
  eapply scan_dependents_Forall; [| constructor | exact Hi].
  intros f deps v child v' r _ _ Hrec _ Ht. cbv beta in Hrec. split.
  - split.
    + simpl. by apply analyzeImpact_root in Hrec as (_ & ? & _).
    + exists r. split; [done |]. by apply truthy_nonempty.
  - rewrite descendants_set_reason. by eapply IH.
Qed.

Lemma determineImpactReason_affected changedFile f :
  determineImpactReason changedFile f "affected" modifiedExports exports
  = Some "File was modified".
Proof. reflexivity. Qed.

Lemma analyzeImpact_affected_reasons fuel :
  forall f visited n visited',
    impact fuel f "affected" visited = Some (n, visited') ->
    Forall (fun d => reason d = Some "File was modified") (descendants n).
Proof.
  induction fuel as [|fuel IH]; intros f visited n visited' Hi; [done |].
  apply analyzeImpact_children in Hi.
  apply Forall_descendants.
  eapply scan_dependents_Forall; [| constructor | exact Hi].
  intros f' deps v child v' r _ _ Hrec Hr _. cbv beta in Hrec. split.
  - rewrite determineImpactReason_affected in Hr. by injection Hr as <-.
  - rewrite descendants_set_reason. by eapply IH.
Qed.

(** *** Order of the children *)


(** *** Files below the root are pairwise distinct

    The visited set is threaded through the whole walk: a file enters
    the tree below the root only at the moment it enters the set. *)

Lemma scan_dependents_fresh rec changedFile ct (v0 : gset string) :
  (forall f v c v', rec f v = Some (c, v') ->
                    file c = f /\ fresh_subtree v c v') ->
  forall entries acc visited cs visited',
    v0 ⊆ visited ->
    NoDup (file <$> flat_map nodes acc) ->
    (forall x, x ∈ file <$> flat_map nodes acc -> x ∈ visited /\ x ∉ v0) ->
    scan rec changedFile ct entries acc visited = Some (cs, visited') ->
    visited ⊆ visited' /\ NoDup (file <$> flat_map nodes cs)
    /\ forall x, x ∈ file <$> flat_map nodes cs -> x ∈ visited' /\ x ∉ v0.
Proof.
  intros Hrec. induction entries as [|[f deps] rest IH];
    intros acc visited cs visited' H0 Hnd Hin; simpl.
  - intros [= <- <-]. done.
  - assert (Hskip : forall v, visited ⊆ v ->
               scan rec changedFile ct rest acc v = Some (cs, visited') ->
               visited ⊆ visited' /\ NoDup (file <$> flat_map nodes cs)
               /\ forall x, x ∈ file <$> flat_map nodes cs ->
                            x ∈ visited' /\ x ∉ v0).
    { intros v Hv Hs. eapply IH in Hs as (? & ? & ?); [| set_solver | done |].
      - split; [set_solver | done].
      - intros x Hx. apply Hin in Hx. set_solver. }
    destruct (_ && _) eqn:Hc; [| by apply Hskip].
    apply andb_true_iff in Hc as [_ Hnv].
    apply negb_true_iff, bool_decide_eq_false in Hnv.
    destruct (determineImpactReason _ _ _ _ _) as [r|];
      [| apply Hskip; set_solver].
    destruct (truthy r); [| apply Hskip; set_solver].
    destruct (rec f _) as [[c v2]|] eqn:Hc; [| done].
    apply Hrec in Hc as (Hf & Hsub & Hndc & Hinc).
    intros Hs. eapply IH in Hs as (? & ? & ?).
    + split; [set_solver | done].
    + set_solver.
    + rewrite flat_map_app, fmap_app. simpl. rewrite app_nil_r.
      change (list_fmap _ _ file (flat_map nodes (children c)))
        with (file <$> descendants c). rewrite Hf.
      apply NoDup_app. split; [done |]. split.
      * intros x Hx. apply Hin in Hx as [Hx _].
        rewrite not_elem_of_cons. split; [set_solver |].
        intros Hxc. apply Hinc in Hxc. set_solver.
      * apply NoDup_cons. split; [| done].
        intros Hfc. apply Hinc in Hfc. set_solver.
    + intros x. rewrite flat_map_app, fmap_app. simpl. rewrite app_nil_r.
      change (list_fmap _ _ file (flat_map nodes (children c)))
        with (file <$> descendants c). rewrite Hf.
      rewrite elem_of_app, elem_of_cons. intros [Hx | [-> | Hx]].
      * apply Hin in Hx. set_solver.
      * set_solver.
      * apply Hinc in Hx. set_solver.
Qed.

Lemma analyzeImpact_fresh fuel :
  forall changedFile ct visited n visited',
    impact fuel changedFile ct visited = Some (n, visited') ->
    fresh_subtree visited n visited'.
Proof.
  induction fuel as [|fuel IH]; intros changedFile ct visited n visited' Hi;
    [done |].
  apply analyzeImpact_children in Hi.
  eapply (scan_dependents_fresh _ _ _ visited) in Hi; [exact Hi | | done | |].
  - intros f v c v' Hc. split; [| by eapply IH].
    by apply analyzeImpact_root in Hc as (? & _).
  - constructor.
  - simpl. intros x Hx. by apply elem_of_nil in Hx.
Qed.
End ImpactFacts.

(** ** Laws of the ordered containers *)

Module JsSetFacts.
Lemma elem_of_add x y (s : JsSet.t) : x ∈ JsSet.add y s <-> x = y \/ x ∈ s.
Proof.
  unfold JsSet.add. destruct (JsSet.has y s) eqn:Hh.
  - apply JsSet_has_true in Hh. split; [by right |]. by intros [-> | ?].
  - rewrite elem_of_app, list_elem_of_singleton. tauto.
Qed.

Lemma NoDup_add y (s : JsSet.t) : NoDup s -> NoDup (JsSet.add y s).
Proof.
  intros Hs. unfold JsSet.add. destruct (JsSet.has y s) eqn:Hh; [done |].
  apply NoDup_app. split; [done |]. split; [| apply NoDup_singleton].
  intros x Hx ->%list_elem_of_singleton.
  apply JsSet_has_true in Hx. congruence.
Qed.

Lemma elem_of_foldl_add x (l : list string) : forall s : JsSet.t,
  x ∈ foldl (fun s x => JsSet.add x s) s l <-> x ∈ s \/ x ∈ l.
Proof.
  induction l as [|y l IH]; intros s; simpl.
  - rewrite elem_of_nil. tauto.
  - rewrite IH, elem_of_add, elem_of_cons. tauto.
Qed.

Lemma elem_of_of_list x l : x ∈ JsSet.of_list l <-> x ∈ l.
Proof.
  unfold JsSet.of_list. rewrite elem_of_foldl_add, elem_of_nil. tauto.
Qed.

Lemma NoDup_of_list l : NoDup (JsSet.of_list l).
Proof.
  unfold JsSet.of_list. generalize (NoDup_nil_2 (A := string)).
  generalize (@nil string) as s.
  induction l as [|y l IH]; intros s Hs; simpl; [done |].
  apply IH. by apply NoDup_add.
Qed.
End JsSetFacts.

Module JsMapFacts.
Import JsMap.

Lemma eqb_decide (k k' : string) : String.eqb k k' = bool_decide (k = k').
Proof.
  destruct (String.eqb_spec k k') as [->|Hne].
  - by rewrite bool_decide_eq_true_2.
  - by rewrite bool_decide_eq_false_2.
Qed.

Lemma keys_add_to k x m : keys (add_to k x m) = keys m.
Proof.
  unfold keys. induction m as [|[k' v'] m IH]; simpl; [done |].
  destruct (String.eqb k k'); simpl; [done |]. by f_equal.
Qed.

Lemma keys_set_in k v m : k ∈ keys m -> keys (set k v m) = keys m.
Proof.
  unfold keys. induction m as [|[k' v'] m IH]; simpl.
  - by intros ?%elem_of_nil.
  - destruct (String.eqb_spec k k') as [->|Hne]; simpl; [done |].
    intros [?|Hin]%elem_of_cons; [done |]. f_equal. by apply IH.
Qed.

Lemma keys_set_notin k v m : k ∉ keys m -> keys (set k v m) = keys m ++ [k].
Proof.
  unfold keys. induction m as [|[k' v'] m IH]; simpl; [done |].
  intros [Hne Hin]%not_elem_of_cons.
  destruct (String.eqb_spec k k') as [->|_]; simpl; [done |].
  f_equal. by apply IH.
Qed.

Lemma keys_set_prefix k v m : keys m `prefix_of` keys (set k v m).
Proof.
  destruct (decide (k ∈ keys m)).
  - by rewrite keys_set_in.
  - rewrite keys_set_notin by done. by apply prefix_app_r.
Qed.

Lemma get_None k m : get k m = None <-> k ∉ keys m.
Proof.
  induction m as [|[k' v'] m IH]; simpl.
  - split; [intros _; apply not_elem_of_nil | done].
  - rewrite not_elem_of_cons.
    destruct (String.eqb_spec k k') as [->|Hne]; [| tauto].
    split; [done | tauto].
Qed.

Lemma get_Some_elem_of k v m : get k m = Some v -> (k, v) ∈ m.
Proof.
  induction m as [|[k' v'] m IH]; simpl; [done |].
  destruct (String.eqb_spec k k') as [->|Hne].
  - intros [= ->]. by left.
  - intros H. right. by apply IH.
Qed.

Lemma elem_of_get k v m : NoDup (keys m) -> (k, v) ∈ m -> get k m = Some v.
Proof.
  induction m as [|[k' v'] m IH]; simpl.
  - by intros _ ?%elem_of_nil.
  - intros [Hk Hnd]%NoDup_cons [[= -> ->]|Hin]%elem_of_cons.
    + by rewrite String.eqb_refl.
    + destruct (String.eqb_spec k k') as [->|Hne]; [| by apply IH].
      destruct Hk. apply list_elem_of_fmap. by exists (k', v).
Qed.

Lemma get_set_eq k v m : get k (set k v m) = Some v.
Proof.
  induction m as [|[k' v'] m IH]; simpl.
  - by rewrite String.eqb_refl.
  - destruct (String.eqb_spec k k') as [->|Hne]; simpl.
    + by rewrite String.eqb_refl.
    + by destruct (String.eqb_spec k k').
Qed.

Lemma get_set_ne k k' v m : k <> k' -> get k' (set k v m) = get k' m.
Proof.
  intros Hne. induction m as [|[k2 v2] m IH]; simpl.
  - destruct (String.eqb_spec k' k); [congruence | done].
  - destruct (String.eqb_spec k k2) as [->|Hne2]; simpl.
    + destruct (String.eqb_spec k' k2); [congruence | done].
    + by rewrite IH.
Qed.

Lemma get_add_to_eq k x m : get k (add_to k x m) = JsSet.add x <$> get k m.
Proof.
  induction m as [|[k' v'] m IH]; simpl; [done |].
  destruct (String.eqb_spec k k') as [->|Hne]; simpl.
  - by rewrite String.eqb_refl.
  - by destruct (String.eqb_spec k k').
Qed.

Lemma get_add_to_ne k k' x m : k <> k' -> get k' (add_to k x m) = get k' m.
Proof.
  intros Hne. induction m as [|[k2 v2] m IH]; simpl; [done |].
  destruct (String.eqb_spec k k2) as [->|Hne2]; simpl.
  - destruct (String.eqb_spec k' k2); [congruence | done].
  - by rewrite IH.
Qed.
End JsMapFacts.

(** ** The import resolver against its specification *)

Section ResolverSpec.
Variable cwd : string.
Variable path_resolve : list string -> string.
Variable path_dirname : string -> string.
Variable path_join : string -> string -> string.
Variable fs : gmap string FsEntry.

Abbreviation isFile := (stat_isFile fs).
Abbreviation resolve :=
  (resolveImportPath cwd path_resolve path_dirname path_join fs).
Abbreviation rewritten := (rewritten cwd path_resolve path_dirname).
Abbreviation candidates := (candidates path_join).
Abbreviation spec_resolve :=
  (spec_resolve cwd path_resolve path_dirname path_join fs).

Lemma find_app_first {A} (f : A -> bool) (l1 l2 : list A) :
  List.find f (l1 ++ l2)
  = match List.find f l1 with Some x => Some x | None => List.find f l2 end.
Proof.
  induction l1 as [|x l1 IH]; simpl; [done |]. by destruct (f x).
Qed.

Lemma try_extensions_find p exts :
  try_extensions fs p exts = List.find isFile (map (fun ext => p +:+ ext) exts).
Proof.
  induction exts as [|ext exts IH]; simpl; [done |].
  by destruct (isFile (p +:+ ext)).
Qed.

Lemma try_index_find p exts :
  try_index path_join fs p exts
  = List.find isFile (map (fun ext => path_join p ("index" +:+ ext)) exts).
Proof.
  induction exts as [|ext exts IH]; simpl; [done |].
  by destruct (isFile (path_join p ("index" +:+ ext))).
Qed.

Lemma find_candidates p :
  List.find isFile (candidates p)
  = if isFile p then Some p
    else match try_extensions fs p extensions with
         | Some q => Some q
         | None => try_index path_join fs p extensions
         end.
Proof.
  unfold candidates, extensions.
  rewrite try_extensions_find, try_index_find.
  cbn [app List.find]. destruct (isFile p); [done |].
  apply find_app_first.
Qed.

Lemma resolveImportPath_refines currentFile specifier :
  resolve currentFile specifier = spec_resolve currentFile specifier.
Proof.
  unfold resolveImportPath, spec_resolve, rewritten, alias_prefixed, relative.
  rewrite find_candidates.
  destruct (startsWith specifier "@/"), (startsWith specifier "."); done.
Qed.

Lemma find_Some_true {A} (f : A -> bool) l x :
  List.find f l = Some x -> f x = true /\ x ∈ l.
Proof.
  intros H. apply find_some in H as [Hin Hf].
  split; [done |]. by apply list_elem_of_In.
Qed.

(** Whatever the resolver returns is a regular file, and comes from an
    alias-prefixed or relative specifier. *)
Lemma resolveImportPath_Some currentFile specifier p :
  resolve currentFile specifier = Some p ->
  isFile p = true
  /\ (alias_prefixed specifier = true \/ relative specifier = true).
Proof.
  rewrite resolveImportPath_refines. unfold spec_resolve.
  destruct (alias_prefixed specifier || relative specifier) eqn:Hc; [| done].
  intros [Hf _]%find_Some_true. split; [done |].
  by apply orb_true_iff in Hc.
Qed.
End ResolverSpec.

(** ** Properties of the graph builder *)

Lemma NoDup_length_le_size (l : list string) (X : gset string) :
  NoDup l -> (forall x, x ∈ l -> x ∈ X) -> length l <= size X.
Proof.
  intros Hnd Hsub. rewrite <- (size_list_to_set (C := gset string) l Hnd).
  apply subseteq_size. set_solver.
Qed.

Section BuildFacts.
Variable cwd : string.
Variable path_resolve : list string -> string.
Variable path_dirname : string -> string.
Variable path_join : string -> string -> string.
Variable fs : gmap string FsEntry.

Abbreviation resolve :=
  (resolveImportPath cwd path_resolve path_dirname path_join fs).
Abbreviation loop :=
  (process_imports cwd path_resolve path_dirname path_join fs).
Abbreviation build :=
  (buildDependencyTree cwd path_resolve path_dirname path_join fs).
Abbreviation parse := (read_and_parse fs).
Abbreviation edge_of :=
  (edge_of cwd path_resolve path_dirname path_join fs).
Abbreviation resolved_imports :=
  (resolved_imports cwd path_resolve path_dirname path_join fs).
Abbreviation followed_imports :=
  (followed_imports cwd path_resolve path_dirname path_join fs).
Abbreviation reachable :=
  (reachable cwd path_resolve path_dirname path_join fs).
Abbreviation unprocessed := (unprocessed fs).
Abbreviation recorded :=
  (recorded cwd path_resolve path_dirname path_join fs).
Abbreviation build_post :=
  (build_post cwd path_resolve path_dirname path_join fs).
Abbreviation rec_ok :=
  (rec_ok cwd path_resolve path_dirname path_join fs).

Lemma resolved_imports_cons filePath src rest :
  resolved_imports filePath (src :: rest)
  = match edge_of filePath src with
    | Some p => p :: resolved_imports filePath rest
    | None => resolved_imports filePath rest
    end.
Proof. reflexivity. Qed.

(** *** [traverse] *)

Lemma visited_statements_all ast :
  traversal_throws ast = false -> visited_statements ast = ast.
Proof.
  unfold traversal_throws. induction ast as [|s ast IH]; simpl; [done |].
  intros [-> Hrest]%orb_false_iff. by rewrite IH.
Qed.

Lemma followed_imports_ends f ast :
  traversal_throws ast = false ->
  followed_imports f ast = resolved_imports f (import_sources ast).
Proof. unfold followed_imports. by intros ->. Qed.

Lemma followed_imports_throws f ast :
  traversal_throws ast = true -> followed_imports f ast = [].
Proof. unfold followed_imports. by intros ->. Qed.

Lemma elem_of_followed_imports f ast p :
  p ∈ followed_imports f ast
  <-> traversal_throws ast = false
      /\ p ∈ resolved_imports f (import_sources ast).
Proof.
  unfold followed_imports. destruct (traversal_throws ast).
  - split; [by intros ?%elem_of_nil | by intros [? _]].
  - tauto.
Qed.

Lemma traverse_spec filePath ast : forall pending exps,
  traverse filePath ast pending exps
  = (if traversal_throws ast then None
     else Some (pending ++ import_sources ast),
     foldl (fun m name => JsMap.add_to filePath name m) exps
           (export_names (visited_statements ast))).
Proof.
  unfold traversal_throws.
  induction ast as [|s ast IH]; intros pending exps; simpl.
  - by rewrite app_nil_r.
  - destruct s as [src|[d|]| | |]; unfold export_names; simpl.
    + by rewrite IH, <- app_assoc.
    + destruct (exportName d) as [name|]; [| by rewrite IH].
      destruct (truthy name); by rewrite IH.
    + by rewrite IH.
    + by rewrite IH.
    + by rewrite IH.
    + done.
Qed.

Lemma keys_foldl_add_to f names : forall m,
  JsMap.keys (foldl (fun m name => JsMap.add_to f name m) m names)
  = JsMap.keys m.
Proof.
  induction names as [|x names IH]; intros m; simpl; [done |].
  by rewrite IH, JsMapFacts.keys_add_to.
Qed.

Lemma get_foldl_add_to_eq f names : forall m,
  JsMap.get f (foldl (fun m name => JsMap.add_to f name m) m names)
  = (fun s => foldl (fun s x => JsSet.add x s) s names) <$> JsMap.get f m.
Proof.
  induction names as [|x names IH]; intros m; simpl.
  - by destruct (JsMap.get f m).
  - rewrite IH, JsMapFacts.get_add_to_eq. by destruct (JsMap.get f m).
Qed.

Lemma get_foldl_add_to_ne f k names : f <> k -> forall m,
  JsMap.get k (foldl (fun m name => JsMap.add_to f name m) m names)
  = JsMap.get k m.
Proof.
  intros Hne. induction names as [|x names IH]; intros m; simpl; [done |].
  by rewrite IH, JsMapFacts.get_add_to_ne.
Qed.

(** *** Invariant and postcondition of a call *)

Lemma recorded_stable st st' k :
  recorded st k ->
  JsMap.get k (dependencies st') = JsMap.get k (dependencies st) ->
  JsMap.get k (exports st') = JsMap.get k (exports st) ->
  processedFiles st ⊆ processedFiles st' ->
  recorded st' k.
Proof.
  unfold recorded. intros Hr Hd He Hsub. rewrite Hd, He.
  destruct (parse k); [| done].
  destruct Hr as (? & ? & Hp). repeat split; [done | done |].
  intros p Hin. apply Hsub. by apply Hp.
Qed.
Lemma wf_add_edge st f p :
  wf st ->
  wf (MkBuildState (JsMap.add_to f p (dependencies st)) (exports st)
        (processedFiles st)).
Proof.
  unfold wf. simpl. by rewrite JsMapFacts.keys_add_to.
Qed.

(** *** The import loop *)

Lemma process_imports_spec rec f (Hrec : rec_ok rec) :
  forall sources st st',
    loop rec f sources st = Some st' ->
    wf st -> f ∈ processedFiles st ->
    wf st'
    /\ processedFiles st ⊆ processedFiles st'
    /\ (forall k, k ∈ processedFiles st ->
           (k <> f -> JsMap.get k (dependencies st')
                      = JsMap.get k (dependencies st))
           /\ JsMap.get k (exports st') = JsMap.get k (exports st))
    /\ JsMap.get f (dependencies st')
       = (fun s => foldl (fun s x => JsSet.add x s) s
                     (resolved_imports f sources))
           <$> JsMap.get f (dependencies st)
    /\ (forall p, p ∈ resolved_imports f sources -> p ∈ processedFiles st')
    /\ (forall k, k ∈ processedFiles st' -> k ∉ processedFiles st ->
                  recorded st' k).
Proof.
  induction sources as [|src rest IH]; intros st st' Hl Hwf Hf.
  { simpl in Hl. injection Hl as <-. split_and!; try done.
    - by destruct (JsMap.get f (dependencies st)).
    - by intros p ?%elem_of_nil. }
  simpl in Hl. rewrite resolved_imports_cons. unfold edge_of.
  destruct (resolve f src) as [p|]; [| by apply IH].
  destruct (truthy p); [| by apply IH].
  set (st1 := MkBuildState (JsMap.add_to f p (dependencies st)) (exports st)
                (processedFiles st)) in *.
  assert (Hwf1 : wf st1) by by apply wf_add_edge.
  assert (Hget1 : JsMap.get f (dependencies st1)
                  = JsSet.add p <$> JsMap.get f (dependencies st))
    by apply JsMapFacts.get_add_to_eq.
  assert (Hne1 : forall k, k <> f ->
             JsMap.get k (dependencies st1) = JsMap.get k (dependencies st)).
  { intros k Hk. apply JsMapFacts.get_add_to_ne. congruence. }
  destruct (decide (p ∈ processedFiles st)) as [Hp|Hp].
  - (* already processed: no descent *)
    rewrite bool_decide_eq_true_2 in Hl by done. simpl in Hl.
    apply IH in Hl as (Hwf' & Hsub & Hfr & Hget & Hin & Hnew); [| done..].
    split_and!; try done.
    + intros k Hk. destruct (Hfr k Hk) as [Hd He]. split; [| done].
      intros Hkf. rewrite Hd by done. by apply Hne1.
    + rewrite Hget, Hget1. by destruct (JsMap.get f (dependencies st)).
    + intros q [->|Hq]%elem_of_cons; [by apply Hsub | by apply Hin].
  - (* descent into [p] *)
    rewrite bool_decide_eq_false_2 in Hl by done. simpl in Hl.
    destruct (rec p st1) as [st2|] eqn:Hr; [| done].
    destruct (Hrec _ _ _ Hr Hwf1 Hp) as [(Hwf2 & Hsub2 & Hfr2 & Hnew2) Hp2].
    change (processedFiles st1) with (processedFiles st) in *.
    change (exports st1) with (exports st) in *.
    apply IH in Hl as (Hwf' & Hsub & Hfr & Hget & Hin & Hnew);
      [| done | by apply Hsub2].
    split_and!; try done.
    + set_solver.
    + intros k Hk. destruct (Hfr k) as [Hd ->]; [by apply Hsub2 |].
      destruct (Hfr2 k Hk) as [Hd2 ->]. split; [| done].
      intros Hkf. rewrite Hd, Hd2 by done. by apply Hne1.
    + rewrite Hget. destruct (Hfr2 f) as [-> _]; [done |].
      rewrite Hget1. by destruct (JsMap.get f (dependencies st)).
    + intros q [->|Hq]%elem_of_cons; [by apply Hsub | by apply Hin].
    + intros k Hk Hnk.
      destruct (decide (k ∈ processedFiles st2)) as [Hk2|Hk2];
        [| by apply Hnew].
      assert (k <> f) by (intros ->; done).
      eapply recorded_stable; [by apply Hnew2 | | | done].
      * by apply Hfr.
      * by apply Hfr.
Qed.

(** *** A call on an unprocessed file *)

Lemma buildDependencyTree_spec fuel : rec_ok (build fuel).
Proof.
  induction fuel as [|fuel IH]; intros f st st' Hb Hwf Hf; [done |].
  simpl in Hb. rewrite bool_decide_eq_false_2 in Hb by done.
  destruct Hwf as (Hkd & Hke & Hnd & Hne).
  assert (Hfd : f ∉ JsMap.keys (dependencies st)) by (intros ?%Hkd; done).
  assert (Hfe : f ∉ JsMap.keys (exports st)) by (intros ?%Hke; done).
  destruct (parse f) as [ast|] eqn:Hparse.
  - rewrite traverse_spec in Hb. simpl in Hb.
    assert (Hwf0 :
      wf (MkBuildState (JsMap.set f [] (dependencies st))
            (foldl (fun m name => JsMap.add_to f name m)
               (JsMap.set f [] (exports st))
               (export_names (visited_statements ast)))
            ({[f]} ∪ processedFiles st))).
    { unfold wf. simpl. rewrite keys_foldl_add_to.
      rewrite !JsMapFacts.keys_set_notin by done.
      repeat split.
      - intros k [?| ->%list_elem_of_singleton]%elem_of_app;
          [apply Hkd in H |]; set_solver.
      - intros k [?| ->%list_elem_of_singleton]%elem_of_app;
          [apply Hke in H |]; set_solver.
      - apply NoDup_app. repeat split; [done | | apply NoDup_singleton].
        by intros k ? ->%list_elem_of_singleton.
      - apply NoDup_app. repeat split; [done | | apply NoDup_singleton].
        by intros k ? ->%list_elem_of_singleton. }
    destruct (traversal_throws ast) eqn:Hthrows.
    { (* the traversal throws: the entries set before it stay *)
      injection Hb as <-. simpl. split; [| set_solver].
      split; [done |]. simpl. split; [set_solver |]. split.
      - intros k Hk. assert (Hkf : f <> k) by (intros ->; done).
        rewrite get_foldl_add_to_ne by done.
        by rewrite !JsMapFacts.get_set_ne by done.
      - intros k Hk Hnk. assert (k = f) as -> by set_solver.
        unfold recorded. rewrite Hparse.
        rewrite followed_imports_throws by done. simpl.
        rewrite get_foldl_add_to_eq, !JsMapFacts.get_set_eq.
        split_and!; [done | done |]. by intros p ?%elem_of_nil. }
    apply process_imports_spec in Hb
      as (Hwf' & Hsub & Hfr & Hget & Hin & Hnew); [| done | done | set_solver].
    simpl in *. split; [| set_solver].
    split; [done |]. split; [set_solver |]. split.
    + intros k Hk. assert (Hkf : f <> k) by (intros ->; done).
      destruct (Hfr k) as [Hd ->]; [set_solver |].
      rewrite Hd by congruence.
      rewrite get_foldl_add_to_ne by done.
      by rewrite !JsMapFacts.get_set_ne by done.
    + intros k Hk Hnk. destruct (decide (k = f)) as [->|Hkf];
        [| apply Hnew; set_solver].
      unfold recorded. rewrite Hparse.
      rewrite followed_imports_ends by done.
      destruct (Hfr f) as [_ ->]; [set_solver |].
      rewrite Hget, get_foldl_add_to_eq, !JsMapFacts.get_set_eq.
      done.
  - injection Hb as <-. simpl. split; [| set_solver].
    unfold build_post, wf. simpl. split_and!; try done.
    + intros k ?%Hkd. set_solver.
    + intros k ?%Hke. set_solver.
    + set_solver.
    + intros k Hk Hnk. assert (k = f) as -> by set_solver.
      unfold recorded. rewrite Hparse. simpl.
      by rewrite !JsMapFacts.get_None.
Qed.
(** *** Fuel: more never changes a result *)

Lemma process_imports_mono rec1 rec2 f :
  (forall p st r, rec1 p st = Some r -> rec2 p st = Some r) ->
  forall sources st r,
    loop rec1 f sources st = Some r -> loop rec2 f sources st = Some r.
Proof.
  intros Hle. induction sources as [|src rest IH]; intros st r; simpl;
    [done |].
  destruct (resolve f src) as [p|]; [| apply IH].
  destruct (truthy p); [| apply IH].
  destruct (negb _); [| apply IH].
  destruct (rec1 p _) as [st2|] eqn:H1; [| done].
  rewrite (Hle _ _ _ H1). apply IH.
Qed.

Lemma buildDependencyTree_fuel_mono fuel :
  forall fuel' f st r,
    fuel <= fuel' -> build fuel f st = Some r -> build fuel' f st = Some r.
Proof.
  induction fuel as [|fuel IH]; intros fuel' f st r Hle; [done |].
  destruct fuel' as [|fuel']; [lia |]. simpl.
  destruct (bool_decide _); [done |].
  destruct (parse f) as [ast|]; [| done].
  destruct (traverse _ _ _ _) as [[pending|] exps]; [| done].
  apply process_imports_mono. intros p st0 r0. apply IH. lia.
Qed.

(** *** The processed set only grows, and holds the file of the call *)

Lemma process_imports_processed rec f :
  (forall p st st', rec p st = Some st' ->
                    processedFiles st ⊆ processedFiles st') ->
  forall sources st st',
    loop rec f sources st = Some st' ->
    processedFiles st ⊆ processedFiles st'.
Proof.
  intros Hrec. induction sources as [|src rest IH]; intros st st'; simpl.
  - by intros [= <-].
  - destruct (resolve f src) as [p|]; [| apply IH].
    destruct (truthy p); [| apply IH].
    destruct (negb _); [| by intros ?%IH].
    destruct (rec p _) as [st2|] eqn:H1; [| done].
    intros ?%IH. apply Hrec in H1. simpl in H1. set_solver.
Qed.

Lemma buildDependencyTree_processed fuel :
  forall f st st',
    build fuel f st = Some st' ->
    processedFiles st ⊆ processedFiles st' /\ f ∈ processedFiles st'.
Proof.
  induction fuel as [|fuel IH]; intros f st st'; [done |]. simpl.
  destruct (decide (f ∈ processedFiles st)) as [Hf|Hf].
  - rewrite bool_decide_eq_true_2 by done. by intros [= <-].
  - rewrite bool_decide_eq_false_2 by done.
    destruct (parse f) as [ast|].
    + destruct (traverse _ _ _ _) as [[pending|] exps];
        [| intros [= <-]; simpl; set_solver].
      intros Hl. apply process_imports_processed in Hl; simpl in Hl.
      * set_solver.
      * intros p st0 st0' H0. by apply IH in H0 as [? _].
    + intros [= <-]. simpl. set_solver.
Qed.

(** A descent is made only into an unprocessed file, and leaves the
    processed set strictly larger. *)
Lemma process_imports_descends rec rec' f :
  (forall p st, p ∉ processedFiles st -> rec p st = rec' p st) ->
  forall sources st, loop rec f sources st = loop rec' f sources st.
Proof.
  intros Heq. induction sources as [|src rest IH]; intros st; simpl;
    [done |].
  destruct (resolve f src) as [p|]; [| apply IH].
  destruct (truthy p); [| apply IH].
  destruct (decide (p ∈ processedFiles st)) as [Hp|Hp].
  - rewrite bool_decide_eq_true_2 by done. apply IH.
  - rewrite bool_decide_eq_false_2 by done. simpl.
    rewrite Heq by done. destruct (rec' p _); [apply IH | done].
Qed.

Lemma buildDependencyTree_grows fuel f st st' :
  f ∉ processedFiles st ->
  build fuel f st = Some st' ->
  processedFiles st ⊂ processedFiles st'.
Proof.
  intros Hf [Hsub Hin]%buildDependencyTree_processed.
  split; [done |]. intros Hback. apply Hf. by apply Hback.
Qed.

(** *** Termination

    The measure is the number of paths of the project outside the
    processed set.  A descent is made into a regular file that is not
    yet processed, and the callee marks it first. *)

Lemma parse_Some_dom f ast : parse f = Some ast -> f ∈ dom fs.
Proof.
  unfold read_and_parse. intros H. apply elem_of_dom.
  destruct (fs !! f) as [e|]; [by eexists | done].
Qed.

Lemma process_imports_total n rec f :
  (forall p st, unprocessed st < n ->
     exists st', rec p st = Some st'
                 /\ processedFiles st ⊆ processedFiles st') ->
  forall sources st,
    unprocessed st < n ->
    exists st', loop rec f sources st = Some st'
                /\ processedFiles st ⊆ processedFiles st'.
Proof.
  intros Hrec. induction sources as [|src rest IH]; intros st Hm; simpl.
  - by eexists.
  - destruct (resolve f src) as [p|]; [| by apply IH].
    destruct (truthy p); [| by apply IH].
    set (st1 := MkBuildState (JsMap.add_to f p (dependencies st))
                  (exports st) (processedFiles st)).
    destruct (negb _).
    2:{ destruct (IH st1) as (st' & -> & Hsub'); [done |]. by exists st'. }
    destruct (Hrec p st1) as (st2 & -> & Hsub); [done |].
    destruct (IH st2) as (st' & -> & Hsub').
    + unfold unprocessed in *. simpl in Hsub.
      eapply Nat.le_lt_trans; [| exact Hm].
      apply subseteq_size. set_solver.
    + exists st'. split; [done |]. simpl in Hsub. set_solver.
Qed.

Lemma buildDependencyTree_total fuel :
  forall f st,
    unprocessed st < fuel ->
    exists st', build fuel f st = Some st'
                /\ processedFiles st ⊆ processedFiles st'.
Proof.
  induction fuel as [|fuel IH]; intros f st Hm; [lia |]. simpl.
  destruct (decide (f ∈ processedFiles st)) as [Hf|Hf].
  - rewrite bool_decide_eq_true_2 by done. by eexists.
  - rewrite bool_decide_eq_false_2 by done.
    destruct (parse f) as [ast|] eqn:Hparse.
    + destruct (traverse _ _ _ _) as [[pending|] exps];
        [| eexists; split; [done |]; simpl; set_solver].
      edestruct (process_imports_total fuel (build fuel) f IH pending)
        as (st' & -> & Hsub).
      * unfold unprocessed in *. simpl.
        apply parse_Some_dom in Hparse.
        assert (size (dom fs ∖ ({[f]} ∪ processedFiles st))
                < size (dom fs ∖ processedFiles st)); [| lia].
        apply subset_size. split; [set_solver |].
        intros Hsub. specialize (Hsub f). set_solver.
      * exists st'. split; [done |]. simpl in Hsub. set_solver.
    + eexists. split; [done |]. simpl. set_solver.
Qed.

(** *** Entries are appended in the order of the calls *)

Lemma process_imports_keys rec f :
  (forall p st st', rec p st = Some st' ->
     JsMap.keys (dependencies st) `prefix_of` JsMap.keys (dependencies st')) ->
  forall sources st st',
    loop rec f sources st = Some st' ->
    JsMap.keys (dependencies st) `prefix_of` JsMap.keys (dependencies st').
Proof.
  intros Hrec. induction sources as [|src rest IH]; intros st st'; simpl.
  - by intros [= <-].
  - destruct (resolve f src) as [p|]; [| apply IH].
    destruct (truthy p); [| apply IH].
    destruct (negb _).
    + destruct (rec p _) as [st2|] eqn:H1; [| done].
      intros ?%IH. apply Hrec in H1. simpl in H1.
      rewrite JsMapFacts.keys_add_to in H1. by etrans.
    + intros ?%IH. simpl in *. by rewrite JsMapFacts.keys_add_to in *.
Qed.

Lemma buildDependencyTree_keys fuel :
  forall f st st',
    build fuel f st = Some st' ->
    JsMap.keys (dependencies st) `prefix_of` JsMap.keys (dependencies st').
Proof.
  induction fuel as [|fuel IH]; intros f st st'; [done |]. simpl.
  destruct (bool_decide _); [by intros [= <-] |].
  destruct (parse f) as [ast|]; [| by intros [= <-]].
  destruct (traverse _ _ _ _) as [[pending|] exps].
  - intros Hl. apply process_imports_keys in Hl; [| done]. simpl in Hl.
    etrans; [| exact Hl]. apply JsMapFacts.keys_set_prefix.
  - intros [= <-]. simpl. apply JsMapFacts.keys_set_prefix.
Qed.
(** *** A whole construction, from the empty maps *)

Lemma initial_state_wf : wf initial_state.
Proof.
  unfold wf, initial_state. simpl.
  split_and!; try apply NoDup_nil_2; by intros k ?%elem_of_nil.
Qed.

Lemma unprocessed_initial : unprocessed initial_state <= size fs.
Proof.
  unfold unprocessed. rewrite <- (size_dom (D := gset string) fs).
  apply subseteq_size. set_solver.
Qed.

Lemma build_from_initial fuel entryFile :
  size fs < fuel ->
  exists st,
    build fuel entryFile initial_state = Some st
    /\ wf st
    /\ entryFile ∈ processedFiles st
    /\ forall k, k ∈ processedFiles st -> recorded st k.
Proof.
  intros Hfuel.
  destruct (buildDependencyTree_total fuel entryFile initial_state)
    as (st & Hb & _).
  { pose proof unprocessed_initial. lia. }
  exists st. split; [done |].
  destruct (buildDependencyTree_spec fuel _ _ _ Hb initial_state_wf)
    as [(Hwf & _ & _ & Hnew) Hin]; [set_solver |].
  split_and!; try done. intros k Hk. apply Hnew; set_solver.
Qed.

Lemma reachable_processed entryFile st :
  entryFile ∈ processedFiles st ->
  (forall k, k ∈ processedFiles st -> recorded st k) ->
  forall g, reachable entryFile g -> g ∈ processedFiles st.
Proof.
  intros Hentry Hrec g. induction 1 as [|f ast p _ IH Hparse Hp]; [done |].
  specialize (Hrec f IH). unfold recorded in Hrec. rewrite Hparse in Hrec.
  by apply Hrec.
Qed.

Lemma recorded_key st k :
  wf st -> (forall k, k ∈ processedFiles st -> recorded st k) ->
  k ∈ JsMap.keys (dependencies st) \/ k ∈ JsMap.keys (exports st) ->
  exists ast, parse k = Some ast.
Proof.
  intros (Hkd & Hke & _) Hrec Hk.
  assert (Hp : k ∈ processedFiles st) by (destruct Hk; auto).
  specialize (Hrec k Hp). unfold recorded in Hrec.
  destruct (parse k) as [ast|]; [by exists ast |].
  destruct Hrec as [Hd He]. apply JsMapFacts.get_None in Hd, He.
  by destruct Hk.
Qed.

Lemma built_graph_length st :
  wf st -> (forall k, k ∈ processedFiles st -> recorded st k) ->
  length (dependencies st) <= size fs.
Proof.
  intros Hwf Hrec. rewrite <- (size_dom (D := gset string) fs).
  replace (length (dependencies st))
    with (length (JsMap.keys (dependencies st)))
    by (unfold JsMap.keys; apply length_fmap).
  apply NoDup_length_le_size; [apply Hwf |].
  intros k Hk. destruct (recorded_key st k Hwf Hrec) as [ast Hast]; [auto |].
  by eapply parse_Some_dom.
Qed.
End BuildFacts.

(** ** Every direct dependent is reported *)

Lemma determineImpactReason_truthy changedFile f ct modifiedExports exps :
  exists r,
    determineImpactReason changedFile f ct modifiedExports exps = Some r
    /\ truthy r = true.
Proof.
  unfold determineImpactReason.
  repeat match goal with
         | |- context [if ?b then _ else _] => destruct b
         end; eexists; split; reflexivity.
Qed.

Section ImpactCoverage.
Variable dependencies : JsMap.t.
Variable exports : JsMap.t.
Variable modifiedExports : list string.

Abbreviation scan := (scan_dependents exports modifiedExports).
Abbreviation impact := (analyzeImpact dependencies exports modifiedExports).

(** After the loop every dependent among the entries is in the visited
    set. *)
Lemma scan_dependents_marks rec changedFile ct :
  (forall f v c v', rec f v = Some (c, v') -> v ⊆ v') ->
  forall entries acc visited cs visited',
    scan rec changedFile ct entries acc visited = Some (cs, visited') ->
    visited ⊆ visited'
    /\ forall F deps, (F, deps) ∈ entries -> changedFile ∈ deps ->
                      F ∈ visited'.
Proof.
  intros Hrec. induction entries as [|[f deps] rest IH];
    intros acc visited cs visited'; simpl.
  - intros [= <- <-]. split; [done |]. by intros F deps ?%elem_of_nil.
  - assert (Hstep : forall a v,
               visited ⊆ v ->
               (changedFile ∈ deps -> f ∈ v) ->
               scan rec changedFile ct rest a v = Some (cs, visited') ->
               visited ⊆ visited'
               /\ forall F deps0, (F, deps0) ∈ (f, deps) :: rest ->
                                  changedFile ∈ deps0 -> F ∈ visited').
    { intros a v Hv Hf Hs. apply IH in Hs as [Hsub Hall].
      split; [set_solver |].
      intros F deps0 [[= -> ->]|Hin]%elem_of_cons Hdep.
      - apply Hsub. by apply Hf.
      - by eapply Hall. }
    destruct (JsSet.has changedFile deps) eqn:Hhas; simpl.
    2:{ apply Hstep; [done |]. intros Hdep%JsSet_has_true. congruence. }
    destruct (decide (f ∈ visited)) as [Hv|Hv].
    { rewrite bool_decide_eq_true_2 by done. simpl. by apply Hstep. }
    rewrite bool_decide_eq_false_2 by done. simpl.
    destruct (determineImpactReason _ _ _ _ _) as [r|];
      [| apply Hstep; set_solver].
    destruct (truthy r); [| apply Hstep; set_solver].
    destruct (rec f _) as [[c v2]|] eqn:Hc; [| done].
    apply Hrec in Hc. apply Hstep; set_solver.
Qed.

(** Whatever the loop adds to the visited set is the file of a node it
    has appended, or of a node below one. *)
Lemma scan_dependents_reported rec changedFile ct (v0 : gset string) :
  (forall f v c v', rec f v = Some (c, v') ->
     file c = f
     /\ forall x, x ∈ v' -> x ∈ v \/ x ∈ file <$> descendants c) ->
  forall entries acc visited cs visited',
    (forall x, x ∈ visited -> x ∈ v0 \/ x ∈ file <$> flat_map nodes acc) ->
    scan rec changedFile ct entries acc visited = Some (cs, visited') ->
    forall x, x ∈ visited' -> x ∈ v0 \/ x ∈ file <$> flat_map nodes cs.
Proof.
  intros Hrec. induction entries as [|[f deps] rest IH];
    intros acc visited cs visited' Hinv; simpl.
  - by intros [= <- <-].
  - destruct (_ && _); [| by apply IH].
    destruct (determineImpactReason_truthy changedFile f ct modifiedExports
                exports) as (r & -> & ->).
    destruct (rec f _) as [[c v2]|] eqn:Hc; [| done].
    apply Hrec in Hc as [Hf Hv2]. apply IH.
    intros x Hx. rewrite flat_map_app, fmap_app. simpl. rewrite app_nil_r.
    change (list_fmap _ _ file (flat_map nodes (children c)))
      with (file <$> descendants c). rewrite Hf.
    rewrite elem_of_app, elem_of_cons.
    apply Hv2 in Hx as [[->%elem_of_singleton|Hx]%elem_of_union|Hx]; auto.
    apply Hinv in Hx. tauto.
Qed.

Lemma analyzeImpact_reported fuel :
  forall changedFile ct visited n visited',
    impact fuel changedFile ct visited = Some (n, visited') ->
    forall x, x ∈ visited' -> x ∈ visited \/ x ∈ file <$> descendants n.
Proof.
  induction fuel as [|fuel IH]; intros changedFile ct visited n visited' Hi;
    [done |].
  apply analyzeImpact_children in Hi. intros x Hx.
  eapply (scan_dependents_reported _ _ _ visited) in Hx;
    [exact Hx | | | exact Hi].
  - intros f v c v' Hc. cbv beta in Hc. split; [| by eapply IH].
    by apply analyzeImpact_root in Hc as (? & _).
  - tauto.
Qed.

(** A direct dependent outside the initial visited set has a node below
    the root. *)
Lemma analyzeImpact_covers fuel changedFile ct visited n visited' F :
  impact fuel changedFile ct visited = Some (n, visited') ->
  direct_dependent dependencies F changedFile ->
  F ∉ visited ->
  F ∈ file <$> descendants n.
Proof.
  intros Hi (deps & Hin & Hdep) HF.
  pose proof (analyzeImpact_reported _ _ _ _ _ _ Hi F) as Hrep.
  destruct fuel as [|fuel]; [done |].
  apply analyzeImpact_children in Hi.
  apply scan_dependents_marks in Hi as [_ Hall].
  - destruct Hrep as [?|?]; [by eapply Hall | done | done].
  - intros f v c v' Hc. cbv beta in Hc.
    by apply analyzeImpact_fresh in Hc as (? & _).
Qed.

(** Below a child of the root every reason is ["File was modified"]. *)
Lemma analyzeImpact_below_children fuel changedFile ct visited n visited' :
  impact fuel changedFile ct visited = Some (n, visited') ->
  forall c d, c ∈ children n -> d ∈ descendants c ->
              reason d = Some "File was modified".
Proof.
  intros Hi.
  assert (Hch : Forall (fun c => Forall (fun d => reason d
                                           = Some "File was modified")
                                   (descendants c)) (children n)).
  { destruct fuel as [|fuel]; [done |].
    apply analyzeImpact_children in Hi.
    eapply scan_dependents_Forall; [| constructor | exact Hi].
    intros f deps v child v2 r _ _ Hrec _ _. cbv beta in Hrec.
    rewrite descendants_set_reason.
    by eapply analyzeImpact_affected_reasons. }
  intros c d Hc Hd. rewrite Forall_forall in Hch. specialize (Hch c Hc).
  rewrite Forall_forall in Hch. by apply Hch.
Qed.
End ImpactCoverage.

(** ** The impact tree: what the analyzer guarantees *)

Lemma analyzeImpact_returns g exps modifiedExports fuel changedFile ct visited :
  length g < fuel ->
  exists n visited',
    analyzeImpact g exps modifiedExports fuel changedFile ct visited
    = Some (n, visited').
Proof.
  intros Hfuel.
  destruct (analyzeImpact_total g exps modifiedExports fuel changedFile ct
              visited) as (n & v' & Hi & _).
  - pose proof (unvisited_le_length g visited). lia.
  - by exists n, v'.
Qed.

(** A property of the children of a result follows from the same property
    of every relabelled subtree the loop can append. *)
Lemma analyzeImpact_children_Forall (P : DependencyNode -> Prop)
    g exps modifiedExports fuel changedFile ct visited n visited' :
  analyzeImpact g exps modifiedExports fuel changedFile ct visited
  = Some (n, visited') ->
  (forall f deps r child,
      (f, deps) ∈ g -> changedFile ∈ deps ->
      determineImpactReason changedFile f ct modifiedExports exps = Some r ->
      file child = f ->
      P (set_reason r child)) ->
  Forall P (children n).
Proof.
  destruct fuel as [|fuel]; [done |]. intros Hi HP.
  apply analyzeImpact_children in Hi.
  eapply scan_dependents_Forall; [| constructor | exact Hi].
  intros f deps v child v' r Hin Hdep Hrec Hr _. cbv beta in Hrec.
  apply analyzeImpact_root in Hrec as (Hf & _). by eapply HP.
Qed.

Lemma determineImpactReason_delete changedFile f modifiedExports exps :
  determineImpactReason changedFile f "delete" modifiedExports exps
  = Some "File was deleted".
Proof. reflexivity. Qed.


(** C2. The root of the result is the changed file, with the change kind
    passed in and no reason; every node below it is labelled ["affected"]
    and carries a non-empty reason. *)
Theorem root_literal_others_affected
    g exps modifiedExports fuel changedFile ct visited :
  length g < fuel ->
  exists n visited',
    analyzeImpact g exps modifiedExports fuel changedFile ct visited
    = Some (n, visited')
    /\ file n = changedFile /\ changeType n = ct /\ reason n = None
    /\ forall d, d ∈ descendants n ->
                 changeType d = "affected"
                 /\ exists r, reason d = Some r /\ r <> "".
Proof.
  intros Hfuel.
  destruct (analyzeImpact_returns g exps modifiedExports fuel changedFile ct
              visited Hfuel) as (n & v' & Hi).
  exists n, v'. split; [done |].
  destruct (analyzeImpact_root _ _ _ _ _ _ _ _ _ Hi) as (? & ? & ?).
  split_and!; try done.
  apply analyzeImpact_descendants_affected in Hi.
  intros d Hd. by apply (proj1 (Forall_forall _ _) Hi).
Qed.


(** C4, as the code has it.  Under [delete], every child of the root is a
    direct dependent of the changed file and carries the reason
    ["File was deleted"], whatever the modified-export names and the export
    table are.  Every direct dependent outside the initial visited set has
    a node: a child of the root, or a node below a child, placed there by
    an earlier branch, with the reason ["File was modified"]. *)
Theorem delete_reason_of_root_children
    g exps modifiedExports fuel changedFile visited :
  length g < fuel ->
  exists n visited',
    analyzeImpact g exps modifiedExports fuel changedFile "delete" visited
    = Some (n, visited')
    /\ (forall c, c ∈ children n ->
          direct_dependent g (file c) changedFile
          /\ reason c = Some "File was deleted")
    /\ (forall F, direct_dependent g F changedFile -> F ∉ visited ->
          exists d, file d = F
                    /\ ((d ∈ children n /\ reason d = Some "File was deleted")
                        \/ (exists c, c ∈ children n /\ d ∈ descendants c
                                      /\ reason d = Some "File was modified"))).
Proof.
  intros Hfuel.
  destruct (analyzeImpact_returns g exps modifiedExports fuel changedFile
              "delete" visited Hfuel) as (n & v' & Hi).
  exists n, v'. split; [done |].
  assert (Hch : forall c, c ∈ children n ->
                  direct_dependent g (file c) changedFile
                  /\ reason c = Some "File was deleted").
  { apply Forall_forall.
    eapply analyzeImpact_children_Forall; [exact Hi |].
    intros f deps r child Hin Hdep Hr <-. simpl.
    rewrite determineImpactReason_delete in Hr. split; [by exists deps |].
    congruence. }
  split; [exact Hch |].
  intros F HF Hnew.
  pose proof (analyzeImpact_covers _ _ _ _ _ _ _ _ _ _ Hi HF Hnew) as Hcov.
  apply list_elem_of_fmap in Hcov as (d & -> & Hd).
  exists d. split; [done |].
  apply elem_of_flat_map in Hd as (c & Hcn & Hd).
  rewrite nodes_unfold in Hd. apply elem_of_cons in Hd as [->|Hd].
  - left. split; [done |]. by apply Hch.
  - right. exists c. split_and!; try done.
    by eapply analyzeImpact_below_children.
Qed.

(** C5. Every node at depth two or more carries the reason
    ["File was modified"], whatever the change kind of the root and the
    modified-export names are. *)
Theorem deeper_nodes_file_was_modified
    g exps modifiedExports fuel changedFile ct visited :
  length g < fuel ->
  exists n visited',
    analyzeImpact g exps modifiedExports fuel changedFile ct visited
    = Some (n, visited')
    /\ forall k d, 2 <= k -> d ∈ level k n ->
                   reason d = Some "File was modified".
Proof.
  intros Hfuel.
  destruct (analyzeImpact_returns g exps modifiedExports fuel changedFile ct
              visited Hfuel) as (n & v' & Hi).
  exists n, v'. split; [done |].
  intros k d Hk Hd. destruct k as [|[|k]]; [lia | lia |].
  simpl in Hd. change (flat_map (level k) (children ?c))
    with (level (S k) c) in Hd.
  apply elem_of_flat_map in Hd as (c & Hc & Hd).
  apply level_descendants in Hd.
  by eapply analyzeImpact_below_children.
Qed.

(** ** The resolver, the construction and the whole run *)

Section Pipeline.
Variable cwd : string.
Variable path_resolve : list string -> string.
Variable path_dirname : string -> string.
Variable path_join : string -> string -> string.
Variable fs : gmap string FsEntry.

Abbreviation resolve :=
  (resolveImportPath cwd path_resolve path_dirname path_join fs).
Abbreviation loop :=
  (process_imports cwd path_resolve path_dirname path_join fs).
Abbreviation build :=
  (buildDependencyTree cwd path_resolve path_dirname path_join fs).
Abbreviation parse := (read_and_parse fs).
Abbreviation edges :=
  (resolved_imports cwd path_resolve path_dirname path_join fs).
Abbreviation run :=
  (analyzeFileChanges cwd path_resolve path_dirname path_join fs).

(** C7. A specifier that is neither alias-prefixed nor relative is
    unresolved; any other is rewritten and resolves to the first regular
    file among the rewritten path, that path with [.ts], [.tsx], [.js],
    [.jsx] appended, and [index.ts], [index.tsx], [index.js],
    [index.jsx] inside it, in this order; unresolved if there is none. *)
Theorem resolver_probes_in_fixed_order currentFile specifier :
  resolve currentFile specifier
  = spec_resolve cwd path_resolve path_dirname path_join fs
      currentFile specifier
  /\ candidates path_join (rewritten cwd path_resolve path_dirname
                             currentFile specifier)
     = let p := rewritten cwd path_resolve path_dirname
                  currentFile specifier in
       [p; p +:+ ".ts"; p +:+ ".tsx"; p +:+ ".js"; p +:+ ".jsx";
        path_join p "index.ts"; path_join p "index.tsx";
        path_join p "index.js"; path_join p "index.jsx"].
Proof.
  split; [apply resolveImportPath_refines | reflexivity].
Qed.

(** C8. The construction returns, whichever files fail.  A file that
    cannot be read or parsed has no entry in either map.  A file that
    parses and whose traversal throws keeps the two entries set before the
    traversal: an empty import set, so none of its imports is followed,
    and the export names visited before the exception.  Every file
    reachable from the entry through the imports of the files inspected to
    the end, and itself inspected to the end, has its entries: exactly its
    resolved imports, exactly its export names. *)
Theorem failure_is_local fuel entryFile :
  size fs < fuel ->
  exists st,
    build fuel entryFile initial_state = Some st
    /\ (forall f, parse f = None ->
          (f ∉ JsMap.keys (dependencies st))
          /\ (f ∉ JsMap.keys (exports st)))
    /\ (forall g ast,
          reachable cwd path_resolve path_dirname path_join fs entryFile g ->
          parse g = Some ast ->
          traversal_throws ast = true ->
          JsMap.get g (dependencies st) = Some []
          /\ exists es,
               JsMap.get g (exports st) = Some es
               /\ forall x, x ∈ es
                            <-> x ∈ export_names (visited_statements ast))
    /\ (forall g ast,
          reachable cwd path_resolve path_dirname path_join fs entryFile g ->
          parse g = Some ast ->
          traversal_throws ast = false ->
          exists ds es,
            JsMap.get g (dependencies st) = Some ds
            /\ JsMap.get g (exports st) = Some es
            /\ (forall p, p ∈ ds <-> p ∈ edges g (import_sources ast))
            /\ (forall x, x ∈ es <-> x ∈ export_names ast)).
Proof.
  intros Hfuel.
  destruct (build_from_initial cwd path_resolve path_dirname path_join fs
              fuel entryFile Hfuel) as (st & Hb & Hwf & Hentry & Hrec).
  exists st. split; [done |]. split_and!.
  - intros f Hf.
    split; intros Hk;
      (destruct (recorded_key _ _ _ _ _ st f Hwf Hrec) as [ast Hast];
       [auto | congruence]).
  - intros g ast Hreach Hparse Hthrows.
    pose proof (reachable_processed _ _ _ _ _ entryFile st Hentry Hrec g
                  Hreach) as Hg.
    specialize (Hrec g Hg). unfold recorded in Hrec. rewrite Hparse in Hrec.
    destruct Hrec as (Hd & He & _).
    rewrite followed_imports_throws in Hd by done.
    split; [exact Hd |]. eexists. split; [exact He |].
    intros x. apply JsSetFacts.elem_of_of_list.
  - intros g ast Hreach Hparse Hends.
    pose proof (reachable_processed _ _ _ _ _ entryFile st Hentry Hrec g
                  Hreach) as Hg.
    specialize (Hrec g Hg). unfold recorded in Hrec. rewrite Hparse in Hrec.
    destruct Hrec as (Hd & He & _).
    rewrite followed_imports_ends in Hd by done.
    rewrite visited_statements_all in He by done.
    eexists _, _. split; [exact Hd |]. split; [exact He |].
    split; intros x; apply JsSetFacts.elem_of_of_list.
Qed.

(** C9. Every edge of the constructed graph leads to a regular file that
    the resolver returned for an import specifier of the edge's source,
    and that specifier is alias-prefixed or relative. *)
Theorem edges_are_resolved_files fuel entryFile :
  size fs < fuel ->
  exists st,
    build fuel entryFile initial_state = Some st
    /\ forall f ds p,
         (f, ds) ∈ dependencies st -> p ∈ ds ->
         stat_isFile fs p = true
         /\ exists ast src,
              parse f = Some ast
              /\ src ∈ import_sources ast
              /\ resolve f src = Some p
              /\ (alias_prefixed src = true \/ relative src = true).
Proof.
  intros Hfuel.
  destruct (build_from_initial cwd path_resolve path_dirname path_join fs
              fuel entryFile Hfuel) as (st & Hb & Hwf & Hentry & Hrec).
  exists st. split; [done |]. intros f ds p Hin Hp.
  assert (Hk : f ∈ JsMap.keys (dependencies st)).
  { apply list_elem_of_fmap. by exists (f, ds). }
  assert (Hget : JsMap.get f (dependencies st) = Some ds).
  { apply JsMapFacts.elem_of_get; [apply Hwf | done]. }
  assert (Hf : f ∈ processedFiles st)
    by (destruct Hwf as (Hkd & _); by apply Hkd).
  specialize (Hrec f Hf). unfold recorded in Hrec.
  destruct (parse f) as [ast|] eqn:Hparse; [| destruct Hrec; congruence].
  destruct Hrec as (Hd & _ & _). rewrite Hget in Hd. injection Hd as ->.
  rewrite JsSetFacts.elem_of_of_list in Hp.
  apply elem_of_followed_imports in Hp as [_ Hp].
  apply list_elem_of_omap in Hp as (src & Hsrc & Hedge).
  unfold edge_of in Hedge.
  destruct (resolve f src) as [q|] eqn:Hres; [| done].
  destruct (truthy q); [| done]. injection Hedge as ->.
  destruct (resolveImportPath_Some _ _ _ _ _ _ _ _ Hres) as [Hfile Hkind].
  split; [done |]. by exists ast, src.
Qed.

End Pipeline.

(** ** Termination of both walks *)

Lemma fresh_subtree_size v c v' :
  fresh_subtree v c v' -> size v + length (descendants c) <= size v'.
Proof.
  intros (Hsub & Hnd & Hin).
  replace v' with (v ∪ v') by set_solver.
  rewrite size_union_alt.
  assert (length (descendants c) <= size (v' ∖ v)); [| lia].
  rewrite <- (length_fmap file).
  apply NoDup_length_le_size; [done |].
  intros x Hx. apply Hin in Hx. set_solver.
Qed.

(** C6. Construction from any entry file and analysis from any changed
    file return, for every fuel above the number of unprocessed paths and
    of unvisited graph keys, always with the same result.  A descent of
    the construction is made only into an unprocessed file and leaves the
    processed set strictly larger; a descent of the analysis is made only
    with the visited set just extended by a file it did not hold, and the
    set grows by at least one file for every node below the root. *)
Theorem construction_and_analysis_terminate
    cwd path_resolve path_dirname path_join fs g exps modifiedExports
    fuel entryFile st changedFile ct visited :
  unprocessed fs st < fuel ->
  unvisited g visited < fuel ->
  (exists st', forall fuel', fuel <= fuel' ->
     buildDependencyTree cwd path_resolve path_dirname path_join fs
       fuel' entryFile st = Some st')
  /\ (exists n visited', forall fuel', fuel <= fuel' ->
        analyzeImpact g exps modifiedExports fuel' changedFile ct visited
        = Some (n, visited'))
  /\ (forall rec rec' f sources s,
        (forall p s', p ∉ processedFiles s' -> rec p s' = rec' p s') ->
        process_imports cwd path_resolve path_dirname path_join fs
          rec f sources s
        = process_imports cwd path_resolve path_dirname path_join fs
            rec' f sources s)
  /\ (forall fuel' p s s',
        p ∉ processedFiles s ->
        buildDependencyTree cwd path_resolve path_dirname path_join fs
          fuel' p s = Some s' ->
        processedFiles s ⊂ processedFiles s')
  /\ (forall rec rec' c t entries acc v,
        (forall f v', f ∉ v' -> rec f ({[f]} ∪ v') = rec' f ({[f]} ∪ v')) ->
        scan_dependents exps modifiedExports rec c t entries acc v
        = scan_dependents exps modifiedExports rec' c t entries acc v)
  /\ (forall fuel' c t v n v',
        analyzeImpact g exps modifiedExports fuel' c t v = Some (n, v') ->
        size v + length (descendants n) <= size v').
Proof.
  intros Hb Hi. split_and!.
  - destruct (buildDependencyTree_total cwd path_resolve path_dirname
                path_join fs fuel entryFile st Hb) as (st' & Hst & _).
    exists st'. intros fuel' Hle.
    by eapply buildDependencyTree_fuel_mono.
  - destruct (analyzeImpact_total g exps modifiedExports fuel changedFile ct
                visited Hi) as (n & v' & Hn & _).
    exists n, v'. intros fuel' Hle.
    by eapply analyzeImpact_fuel_mono.
  - intros. by apply process_imports_descends.
  - intros. by eapply buildDependencyTree_grows.
  - intros. by apply scan_dependents_descends.
  - intros. eapply fresh_subtree_size, analyzeImpact_fresh. eassumption.
Qed.

(** Had the caller marked the changed file itself, no file could appear
    twice in the whole tree. *)
Lemma whole_tree_distinct_when_root_marked
    g exps modifiedExports fuel changedFile ct visited n visited' :
  changedFile ∈ visited ->
  analyzeImpact g exps modifiedExports fuel changedFile ct visited
  = Some (n, visited') ->
  NoDup (file <$> nodes n).
Proof.
  intros Hroot Hi.
  destruct (analyzeImpact_root _ _ _ _ _ _ _ _ _ Hi) as (Hf & _).
  apply analyzeImpact_fresh in Hi as (_ & Hnd & Hin).
  rewrite nodes_unfold, fmap_cons, Hf. apply NoDup_cons. split; [| done].
  intros Hx. apply Hin in Hx. tauto.
Qed.

(** ** The sample projects, evaluated *)

Example example_build_cycle :
  dependencies <$> Examples.build Examples.cycle 3 "/p/a.ts" initial_state
  = Some Examples.cycle_graph.
Proof. vm_compute. reflexivity. Qed.

Example example_build_diamond :
  (fun st => (dependencies st, exports st))
    <$> Examples.build Examples.diamond 5 "/p/index.ts" initial_state
  = Some (Examples.diamond_graph, Examples.diamond_exports).
Proof. vm_compute. reflexivity. Qed.

Example example_build_sample :
  (fun st => (dependencies st, exports st))
    <$> Examples.build Examples.sample 6 "/p/src/index.ts" initial_state
  = Some (Examples.sample_graph, Examples.sample_exports).
Proof. vm_compute. reflexivity. Qed.

Example example_build_faulty :
  Examples.build Examples.faulty 7 "/p/index.ts" initial_state
  = Some (MkBuildState Examples.faulty_graph Examples.faulty_exports
            (list_to_set ["/p/index.ts"; "/p/t.ts"; "/p/u.ts";
                          "/p/broken.ts"; "/p/c.ts"])).
Proof. vm_compute. reflexivity. Qed.

Example example_build_throwing_entry :
  Examples.build Examples.faulty 7 "/p/t.ts" initial_state
  = Some (MkBuildState [("/p/t.ts", [])] [("/p/t.ts", [])] {[ "/p/t.ts" ]}).
Proof. vm_compute. reflexivity. Qed.

Example example_dirname :
  Posix.dirname "/p/src/a.ts" = "/p/src"
  /\ Posix.dirname "/p/src/../a.ts" = "/p/src/.."
  /\ Posix.dirname "/p/src/lib/" = "/p/src"
  /\ Posix.dirname "/p//a.ts" = "/p/"
  /\ Posix.dirname "/a.ts" = "/"
  /\ Posix.dirname "//a" = "//"
  /\ Posix.dirname "a.ts" = "."
  /\ Posix.dirname "src/a.ts" = "src"
  /\ Posix.dirname "" = ".".
Proof. vm_compute. repeat split. Qed.

Example example_resolve_alias :
  Examples.resolve Examples.sample "/p/src/index.ts" "@/lib"
  = Some "/p/src/lib/index.js".
Proof. vm_compute. reflexivity. Qed.

Example example_resolve_bare :
  Examples.resolve Examples.sample "/p/src/index.ts" "react" = None.
Proof. vm_compute. reflexivity. Qed.

Example example_run_sample_modify :
  Examples.run Examples.sample 6 "/p/src/index.ts" "/p/src/a.ts" "modify"
    (Some ["foo"])
  = Some
      (MkNode "/p/src/a.ts" "modify" None
         [MkNode "/p/src/index.ts" "affected"
            (Some "Modified exports: foo") [];
          MkNode "/p/src/lib/index.js" "affected"
            (Some "Modified exports: foo") []]).
Proof. vm_compute. reflexivity. Qed.

(** ** The claims on the sample projects *)

(** C1. On two files that import each other the changed file is reported
    twice: as the root, and again below its own dependent.  The visited
    set never receives the changed file itself. *)
Theorem changed_file_repeats_on_a_cycle :
  Examples.run Examples.cycle 3 "/p/a.ts" "/p/a.ts" "modify" None
  = Some Examples.cycle_tree
  /\ file <$> nodes Examples.cycle_tree = ["/p/a.ts"; "/p/b.ts"; "/p/a.ts"]
  /\ ~ NoDup (file <$> nodes Examples.cycle_tree).
Proof.
  split; [vm_compute; reflexivity |]. split; [reflexivity |].
  simpl. intros [Hnot _]%NoDup_cons. apply Hnot.
  right. left.
Qed.

Lemma root_literal_others_affected_witness :
  length Examples.diamond_graph < 5
  /\ exists n visited',
       analyzeImpact Examples.diamond_graph Examples.diamond_exports []
         5 "/p/c.ts" "delete" ∅ = Some (n, visited')
       /\ file n = "/p/c.ts" /\ changeType n = "delete" /\ reason n = None
       /\ forall d, d ∈ descendants n ->
                    changeType d = "affected"
                    /\ exists r, reason d = Some r /\ r <> "".
Proof.
  split; [simpl; lia |].
  apply (root_literal_others_affected Examples.diamond_graph
           Examples.diamond_exports [] 5 "/p/c.ts" "delete" ∅).
  simpl; lia.
Defined.



(** C4 as stated fails twice on the diamond: [y.ts] imports the deleted
    file directly, yet it is reached first through [x.ts] and carries the
    reason of that level; and the reason of [x.ts] begins with a capital
    letter. *)
Lemma delete_reason_differs_on_diamond :
  Examples.run Examples.diamond 5 "/p/index.ts" "/p/c.ts" "delete" None
  = Some Examples.diamond_tree
  /\ (exists d,
         d ∈ nodes Examples.diamond_tree
         /\ file d = "/p/y.ts"
         /\ direct_dependent Examples.diamond_graph "/p/y.ts" "/p/c.ts"
         /\ reason d = Some "File was modified")
  /\ (exists d,
         d ∈ children Examples.diamond_tree
         /\ direct_dependent Examples.diamond_graph (file d) "/p/c.ts"
         /\ reason d <> Some "file was deleted").
Proof.
  split; [vm_compute; reflexivity |]. split.
  - exists (MkNode "/p/y.ts" "affected" (Some "File was modified") []).
    split; [| split; [done |]; split; [| done]].
    + apply list_elem_of_In. simpl. auto.
    + exists ["/p/x.ts"; "/p/c.ts"]. split.
      * apply list_elem_of_In. simpl. auto.
      * apply list_elem_of_In. simpl. auto.
  - eexists. split; [by left |]. split; [| discriminate].
    exists ["/p/c.ts"]. split; [| by left].
    apply list_elem_of_In. simpl. auto.
Qed.

Lemma delete_reason_of_root_children_witness :
  length Examples.diamond_graph < 5
  /\ exists n visited',
       analyzeImpact Examples.diamond_graph Examples.diamond_exports ["foo"]
         5 "/p/c.ts" "delete" ∅ = Some (n, visited')
       /\ (forall c, c ∈ children n ->
             direct_dependent Examples.diamond_graph (file c) "/p/c.ts"
             /\ reason c = Some "File was deleted")
       /\ (forall F,
             direct_dependent Examples.diamond_graph F "/p/c.ts" ->
             F ∉ (∅ : gset string) ->
             exists d, file d = F
                       /\ ((d ∈ children n
                            /\ reason d = Some "File was deleted")
                           \/ (exists c, c ∈ children n /\ d ∈ descendants c
                                         /\ reason d
                                            = Some "File was modified"))).
Proof.
  split; [simpl; lia |].
  apply (delete_reason_of_root_children Examples.diamond_graph
           Examples.diamond_exports ["foo"] 5 "/p/c.ts" ∅).
  simpl; lia.
Defined.

Lemma deeper_nodes_file_was_modified_witness :
  length Examples.diamond_graph < 5
  /\ exists n visited',
       analyzeImpact Examples.diamond_graph Examples.diamond_exports ["foo"]
         5 "/p/c.ts" "delete" ∅ = Some (n, visited')
       /\ forall k d, 2 <= k -> d ∈ level k n ->
                      reason d = Some "File was modified".
Proof.
  split; [simpl; lia |].
  apply (deeper_nodes_file_was_modified Examples.diamond_graph
           Examples.diamond_exports ["foo"] 5 "/p/c.ts" "delete" ∅).
  simpl; lia.
Defined.

Lemma construction_and_analysis_terminate_witness :
  unprocessed Examples.cycle initial_state < 3
  /\ unvisited Examples.cycle_graph ∅ < 3
  /\ (exists st', forall fuel', 3 <= fuel' ->
        Examples.build Examples.cycle fuel' "/p/a.ts" initial_state = Some st')
  /\ (exists n visited', forall fuel', 3 <= fuel' ->
        analyzeImpact Examples.cycle_graph [] [] fuel' "/p/b.ts" "add" ∅
        = Some (n, visited')).
Proof.
  assert (Hb : unprocessed Examples.cycle initial_state < 3)
    by (vm_compute; lia).
  assert (Hi : unvisited Examples.cycle_graph ∅ < 3) by (vm_compute; lia).
  split; [exact Hb |]. split; [exact Hi |].
  destruct (construction_and_analysis_terminate
              Examples.cwd (Posix.resolve Examples.cwd) Posix.dirname
              Posix.join2 Examples.cycle Examples.cycle_graph [] []
              3 "/p/a.ts" initial_state "/p/b.ts" "add" ∅ Hb Hi)
    as (Hbuild & Himpact & _).
  split; [exact Hbuild | exact Himpact].
Defined.

Lemma failure_is_local_witness :
  size Examples.faulty < 7
  /\ exists st,
       Examples.build Examples.faulty 7 "/p/index.ts" initial_state
       = Some st
       /\ (forall f, read_and_parse Examples.faulty f = None ->
             (f ∉ JsMap.keys (dependencies st))
             /\ (f ∉ JsMap.keys (exports st)))
       /\ (forall g ast,
             reachable Examples.cwd (Posix.resolve Examples.cwd)
               Posix.dirname Posix.join2 Examples.faulty
               "/p/index.ts" g ->
             read_and_parse Examples.faulty g = Some ast ->
             traversal_throws ast = true ->
             JsMap.get g (dependencies st) = Some []
             /\ exists es,
                  JsMap.get g (exports st) = Some es
                  /\ forall x,
                       x ∈ es
                       <-> x ∈ export_names (visited_statements ast))
       /\ (forall g ast,
             reachable Examples.cwd (Posix.resolve Examples.cwd)
               Posix.dirname Posix.join2 Examples.faulty
               "/p/index.ts" g ->
             read_and_parse Examples.faulty g = Some ast ->
             traversal_throws ast = false ->
             exists ds es,
               JsMap.get g (dependencies st) = Some ds
               /\ JsMap.get g (exports st) = Some es
               /\ (forall p,
                     p ∈ ds
                     <-> p ∈ resolved_imports Examples.cwd
                               (Posix.resolve Examples.cwd) Posix.dirname
                               Posix.join2 Examples.faulty g
                               (import_sources ast))
               /\ (forall x, x ∈ es <-> x ∈ export_names ast)).
Proof.
  split; [vm_compute; lia |].
  apply (failure_is_local Examples.cwd (Posix.resolve Examples.cwd)
           Posix.dirname Posix.join2 Examples.faulty 7 "/p/index.ts").
  vm_compute; lia.
Defined.

Lemma edges_are_resolved_files_witness :
  size Examples.sample < 6
  /\ exists st,
       Examples.build Examples.sample 6 "/p/src/index.ts" initial_state
       = Some st
       /\ forall f ds p,
            (f, ds) ∈ dependencies st -> p ∈ ds ->
            stat_isFile Examples.sample p = true
            /\ exists ast src,
                 read_and_parse Examples.sample f = Some ast
                 /\ src ∈ import_sources ast
                 /\ Examples.resolve Examples.sample f src = Some p
                 /\ (alias_prefixed src = true \/ relative src = true).
Proof.
  split; [vm_compute; lia |].
  apply (edges_are_resolved_files Examples.cwd (Posix.resolve Examples.cwd)
           Posix.dirname Posix.join2 Examples.sample 6 "/p/src/index.ts").
  vm_compute; lia.
Defined.


(** ** Further properties of the impact analyzer *)

Section ImpactMore.
Variable g : JsMap.t.
Variable exps : JsMap.t.
Variable modifiedExports : list string.

Abbreviation scan := (scan_dependents exps modifiedExports).
Abbreviation impact := (analyzeImpact g exps modifiedExports).
Abbreviation children_import_parent := (children_import_parent g).

(** As [scan_dependents_Forall], with what is known of the visited set at
    a descent: it holds the initial set, it has just received the file
    descended into, and what the descent returns stays in the final set. *)
Lemma scan_dependents_Forall_visited (P : DependencyNode -> Prop)
    rec changedFile ct (v0 : gset string) :
  (forall f v c v', rec f v = Some (c, v') -> v ⊆ v') ->
  forall entries acc visited cs visited',
    (forall f deps vcur child v2 r,
        (f, deps) ∈ entries -> changedFile ∈ deps ->
        f ∉ vcur -> v0 ⊆ vcur ->
        rec f ({[f]} ∪ vcur) = Some (child, v2) -> v2 ⊆ visited' ->
        determineImpactReason changedFile f ct modifiedExports exps
        = Some r ->
        P (set_reason r child)) ->
    v0 ⊆ visited -> Forall P acc ->
    scan rec changedFile ct entries acc visited = Some (cs, visited') ->
    Forall P cs.
Proof.
  intros Hmono. induction entries as [|[f deps] rest IH];
    intros acc visited cs visited' HP H0 Hacc Hs; simpl in Hs.
  - congruence.
  - assert (Hrest : forall f0 deps0 vcur child v2 r,
               (f0, deps0) ∈ rest -> changedFile ∈ deps0 ->
               f0 ∉ vcur -> v0 ⊆ vcur ->
               rec f0 ({[f0]} ∪ vcur) = Some (child, v2) -> v2 ⊆ visited' ->
               determineImpactReason changedFile f0 ct modifiedExports exps
               = Some r ->
               P (set_reason r child)).
    { intros ? ? ? ? ? ? Hin. apply HP. by right. }
    destruct (JsSet.has changedFile deps) eqn:Hhas; simpl in Hs;
      [| by eapply IH].
    apply JsSet_has_true in Hhas.
    destruct (decide (f ∈ visited)) as [Hv|Hv].
    { rewrite bool_decide_eq_true_2 in Hs by done. by eapply IH. }
    rewrite bool_decide_eq_false_2 in Hs by done. simpl in Hs.
    destruct (determineImpactReason _ _ _ _ _) as [r|] eqn:Hr;
      [| eapply (IH acc ({[f]} ∪ visited));
         [exact Hrest | set_solver | done | exact Hs]].
    destruct (truthy r);
      [| eapply (IH acc ({[f]} ∪ visited));
         [exact Hrest | set_solver | done | exact Hs]].
    destruct (rec f _) as [[child v2]|] eqn:Hc; [| done].
    pose proof (Hmono _ _ _ _ Hc) as Hsub.
    pose proof (scan_dependents_marks _ _ _ _ _ Hmono _ _ _ _ _ Hs)
      as [Hfin _].
    eapply (IH (acc ++ [set_reason r child]) v2);
      [exact Hrest | set_solver | | exact Hs].
    apply Forall_app. split; [done |]. constructor; [| constructor].
    eapply HP; eauto. by left.
Qed.

Lemma analyzeImpact_mono fuel changedFile ct visited n visited' :
  impact fuel changedFile ct visited = Some (n, visited') ->
  visited ⊆ visited'.
Proof. by intros (? & _)%analyzeImpact_fresh. Qed.

(** *** Every node below the root imports the file of its parent *)

Lemma analyzeImpact_parent_edges fuel :
  forall changedFile ct visited n visited',
    impact fuel changedFile ct visited = Some (n, visited') ->
    Forall children_import_parent (nodes n).
Proof.
  induction fuel as [|fuel IH]; intros changedFile ct visited n visited' Hi;
    [done |].
  destruct (analyzeImpact_root _ _ _ _ _ _ _ _ _ Hi) as (Hf & _).
  apply analyzeImpact_children in Hi.
  assert (Hch : Forall (fun c => direct_dependent g (file c) changedFile
                                 /\ Forall children_import_parent (nodes c))
                  (children n)).
  { eapply scan_dependents_Forall; [| constructor | exact Hi].
    intros f deps v child v' r Hin Hdep Hrec _ _. cbv beta in Hrec.
    pose proof (IH _ _ _ _ _ Hrec) as Hnodes.
    apply analyzeImpact_root in Hrec as (Hfc & _). split.
    - simpl. rewrite Hfc. by exists deps.
    - rewrite nodes_unfold in Hnodes. apply Forall_cons in Hnodes as [Hq Hd].
      rewrite nodes_unfold, descendants_set_reason.
      constructor; [exact Hq | exact Hd]. }
  rewrite nodes_unfold. constructor.
  - intros c Hc. rewrite Hf. rewrite Forall_forall in Hch.
    by apply Hch.
  - apply Forall_descendants. eapply Forall_impl; [exact Hch |].
    intros c [_ Hn]. rewrite nodes_unfold in Hn.
    by apply Forall_cons in Hn.
Qed.

Lemma analyzeImpact_files_are_keys fuel :
  forall changedFile ct visited n visited',
    impact fuel changedFile ct visited = Some (n, visited') ->
    Forall (fun d => file d ∈ JsMap.keys g) (descendants n).
Proof.
  induction fuel as [|fuel IH]; intros changedFile ct visited n visited' Hi;
    [done |].
  apply analyzeImpact_children in Hi. apply Forall_descendants.
  eapply scan_dependents_Forall; [| constructor | exact Hi].
  intros f deps v child v' r Hin _ Hrec _ _. cbv beta in Hrec.
  rewrite descendants_set_reason. split; [| by eapply IH].
  simpl. apply analyzeImpact_root in Hrec as (-> & _).
  apply list_elem_of_fmap. by exists (f, deps).
Qed.
Lemma Forall_nodes_children (Q : DependencyNode -> Prop) cs :
  Forall (fun c => Forall Q (nodes c)) cs -> Forall Q (flat_map nodes cs).
Proof.
  induction 1 as [|c cs Hc _ IH]; simpl; [constructor |].
  by apply Forall_app.
Qed.

(** *** The final visited set holds every dependent of every node *)

Lemma analyzeImpact_closed fuel :
  forall changedFile ct visited n visited',
    impact fuel changedFile ct visited = Some (n, visited') ->
    Forall (fun m => forall F, direct_dependent g F (file m) -> F ∈ visited')
           (nodes n).
Proof.
  induction fuel as [|fuel IH]; intros changedFile ct visited n visited' Hi;
    [done |].
  destruct (analyzeImpact_root _ _ _ _ _ _ _ _ _ Hi) as (Hf & _).
  apply analyzeImpact_children in Hi.
  assert (Hmono : forall f v c v',
             impact fuel f "affected" v = Some (c, v') -> v ⊆ v')
    by (intros f v c v'; apply analyzeImpact_mono).
  rewrite nodes_unfold. constructor.
  - intros F (deps & Hin & Hdep). rewrite Hf in Hdep.
    apply scan_dependents_marks in Hi as [_ Hall]; [| exact Hmono].
    by eapply Hall.
  - apply Forall_nodes_children.
    eapply (scan_dependents_Forall_visited _ _ _ _ visited);
      [exact Hmono | | done | constructor | exact Hi].
    intros f deps vcur child v2 r _ _ _ _ Hrec Hfin _.
    apply IH in Hrec. rewrite nodes_unfold in *.
    rewrite descendants_set_reason.
    apply Forall_cons in Hrec as [Hq Hd]. constructor.
    + intros F HF. apply Hfin. by apply Hq.
    + eapply Forall_impl; [exact Hd |]. intros m Hm F HF.
      apply Hfin. by apply Hm.
Qed.

(** *** Every file below the root depends on the changed file *)

Lemma impacted_through v v2 changedFile G F :
  impacted g v2 G F -> v ⊆ v2 -> impacted g v changedFile G ->
  impacted g v changedFile F.
Proof.
  intros HF Hsub HG. induction HF as [F Hdep Hnew|H F _ IH Hdep Hnew].
  - eapply impacted_step; [exact HG | done | set_solver].
  - eapply impacted_step; [exact IH | done | set_solver].
Qed.

Lemma analyzeImpact_descendants_impacted fuel :
  forall changedFile ct visited n visited',
    impact fuel changedFile ct visited = Some (n, visited') ->
    Forall (fun d => impacted g visited changedFile (file d)) (descendants n).
Proof.
  induction fuel as [|fuel IH]; intros changedFile ct visited n visited' Hi;
    [done |].
  apply analyzeImpact_children in Hi.
  apply Forall_descendants.
  eapply (scan_dependents_Forall_visited _ _ _ _ visited);
    [| | done | constructor | exact Hi].
  { intros f v c v'. apply analyzeImpact_mono. }
  intros f deps vcur child v2 r Hin Hdep Hnew Hsub Hrec _ _.
  pose proof (IH _ _ _ _ _ Hrec) as Hbelow.
  apply analyzeImpact_root in Hrec as (Hfc & _).
  assert (Hf : impacted g visited changedFile f).
  { apply impacted_direct; [by exists deps | set_solver]. }
  split; [simpl; by rewrite Hfc |].
  rewrite descendants_set_reason.
  eapply Forall_impl; [exact Hbelow |]. intros d Hd.
  eapply impacted_through; [exact Hd | set_solver | exact Hf].
Qed.

Lemma analyzeImpact_impacted_reported fuel changedFile ct visited n visited' :
  impact fuel changedFile ct visited = Some (n, visited') ->
  forall x, impacted g visited changedFile x -> x ∈ file <$> descendants n.
Proof.
  intros Hi x Hx. induction Hx as [F Hdep Hnew|G F _ IH Hdep Hnew].
  - by eapply analyzeImpact_covers.
  - apply list_elem_of_fmap in IH as (m & -> & Hm).
    pose proof (analyzeImpact_closed _ _ _ _ _ _ Hi) as Hcl.
    rewrite nodes_unfold in Hcl. apply Forall_cons in Hcl as [_ Hcl].
    rewrite Forall_forall in Hcl.
    pose proof (Hcl m Hm F Hdep) as HF.
    by destruct (analyzeImpact_reported _ _ _ _ _ _ _ _ _ Hi F HF).
Qed.

(** *** Without unvisited dependents the result is the root alone *)

Lemma scan_dependents_none rec changedFile ct :
  forall entries acc visited,
    (forall F deps, (F, deps) ∈ entries -> changedFile ∈ deps ->
                    F ∈ visited) ->
    scan rec changedFile ct entries acc visited = Some (acc, visited).
Proof.
  induction entries as [|[f deps] rest IH]; intros acc visited Hall; simpl;
    [done |].
  destruct (JsSet.has changedFile deps) eqn:Hhas; simpl.
  - apply JsSet_has_true in Hhas.
    rewrite bool_decide_eq_true_2 by (eapply Hall; [by left | done]).
    simpl. apply IH. intros F deps0 Hin. apply Hall. by right.
  - apply IH. intros F deps0 Hin. apply Hall. by right.
Qed.

(** *** The labels do not steer the walk *)

Lemma scan_dependents_skeleton exps2 modifiedExports2 rec1 rec2
    changedFile ct1 ct2 :
  (forall f v c1 v1 c2 v2,
      rec1 f v = Some (c1, v1) -> rec2 f v = Some (c2, v2) ->
      skeleton c1 = skeleton c2 /\ v1 = v2) ->
  forall entries acc1 acc2 visited cs1 w1 cs2 w2,
    map skeleton acc1 = map skeleton acc2 ->
    scan rec1 changedFile ct1 entries acc1 visited = Some (cs1, w1) ->
    scan_dependents exps2 modifiedExports2 rec2 changedFile ct2 entries acc2
      visited = Some (cs2, w2) ->
    map skeleton cs1 = map skeleton cs2 /\ w1 = w2.
Proof.
  intros Hrec. induction entries as [|[f deps] rest IH];
    intros acc1 acc2 visited cs1 w1 cs2 w2 Hacc; simpl.
  - by intros [= <- <-] [= <- <-].
  - destruct (_ && _); [| by apply IH].
    destruct (determineImpactReason_truthy changedFile f ct1 modifiedExports
                exps) as (r1 & -> & ->).
    destruct (determineImpactReason_truthy changedFile f ct2 modifiedExports2
                exps2) as (r2 & -> & ->).
    destruct (rec1 f _) as [[c1 v1]|] eqn:H1; [| done].
    destruct (rec2 f _) as [[c2 v2]|] eqn:H2; [| done].
    destruct (Hrec _ _ _ _ _ _ H1 H2) as [Hsk <-].
    apply IH. rewrite !map_app. simpl. f_equal; [done |].
    destruct c1, c2. simpl in *. by injection Hsk as -> ->.
Qed.
End ImpactMore.

Lemma analyzeImpact_skeleton g exps1 me1 exps2 me2 fuel :
  forall changedFile ct1 ct2 visited n1 v1 n2 v2,
    analyzeImpact g exps1 me1 fuel changedFile ct1 visited = Some (n1, v1) ->
    analyzeImpact g exps2 me2 fuel changedFile ct2 visited = Some (n2, v2) ->
    skeleton n1 = skeleton n2 /\ v1 = v2.
Proof.
  induction fuel as [|fuel IH];
    intros changedFile ct1 ct2 visited n1 v1 n2 v2 H1 H2; [done |].
  destruct (analyzeImpact_root _ _ _ _ _ _ _ _ _ H1) as (Hf1 & _).
  destruct (analyzeImpact_root _ _ _ _ _ _ _ _ _ H2) as (Hf2 & _).
  apply analyzeImpact_children in H1, H2.
  destruct (scan_dependents_skeleton exps1 me1 exps2 me2 _ _ _ _ _
              (fun f v c1 w1 c2 w2 => IH f "affected" "affected" v c1 w1 c2 w2)
              _ _ _ _ _ _ _ _ eq_refl H1 H2) as [Hcs Hv].
  split; [| done]. destruct n1, n2. simpl in *. by rewrite Hf1, Hf2, Hcs.
Qed.

(** ** Further properties of the graph builder *)

Section BuildMore.
Variable cwd : string.
Variable path_resolve : list string -> string.
Variable path_dirname : string -> string.
Variable path_join : string -> string -> string.
Variable fs : gmap string FsEntry.

Abbreviation resolve :=
  (resolveImportPath cwd path_resolve path_dirname path_join fs).
Abbreviation loop :=
  (process_imports cwd path_resolve path_dirname path_join fs).
Abbreviation build :=
  (buildDependencyTree cwd path_resolve path_dirname path_join fs).
Abbreviation parse := (read_and_parse fs).
Abbreviation resolved_imports :=
  (resolved_imports cwd path_resolve path_dirname path_join fs).
Abbreviation reachable :=
  (reachable cwd path_resolve path_dirname path_join fs).
Abbreviation recorded :=
  (recorded cwd path_resolve path_dirname path_join fs).
Abbreviation run :=
  (analyzeFileChanges cwd path_resolve path_dirname path_join fs).

(** *** Only reachable files are processed *)

Lemma process_imports_reachable rec entryFile f ast :
  (forall p st st',
      rec p st = Some st' -> reachable entryFile p ->
      (forall k, k ∈ processedFiles st -> reachable entryFile k) ->
      forall k, k ∈ processedFiles st' -> reachable entryFile k) ->
  parse f = Some ast ->
  traversal_throws ast = false ->
  reachable entryFile f ->
  forall sources st st',
    sources ⊆ import_sources ast ->
    loop rec f sources st = Some st' ->
    (forall k, k ∈ processedFiles st -> reachable entryFile k) ->
    forall k, k ∈ processedFiles st' -> reachable entryFile k.
Proof.
  intros Hrec Hparse Hends Hf. induction sources as [|src rest IH];
    intros st st' Hsub; simpl.
  - by intros [= <-].
  - assert (Hrest : rest ⊆ import_sources ast) by set_solver.
    destruct (resolve f src) as [p|] eqn:Hres; [| by apply IH].
    destruct (truthy p) eqn:Ht; [| by apply IH].
    assert (Hp : reachable entryFile p).
    { eapply reachable_import; [exact Hf | exact Hparse |].
      apply elem_of_followed_imports. split; [done |].
      apply list_elem_of_omap. exists src. split; [set_solver |].
      unfold edge_of. by rewrite Hres, Ht. }
    destruct (negb _).
    + destruct (rec p _) as [st2|] eqn:H2; [| done].
      intros Hl Hall. eapply IH; [done | exact Hl |].
      eapply Hrec; [exact H2 | done | done].
    + intros Hl Hall. by eapply IH.
Qed.

Lemma buildDependencyTree_reachable entryFile fuel :
  forall f st st',
    build fuel f st = Some st' ->
    reachable entryFile f ->
    (forall k, k ∈ processedFiles st -> reachable entryFile k) ->
    forall k, k ∈ processedFiles st' -> reachable entryFile k.
Proof.
  induction fuel as [|fuel IH]; intros f st st'; [done |]. simpl.
  destruct (bool_decide _); [by intros [= <-] |].
  destruct (parse f) as [ast|] eqn:Hparse.
  - rewrite traverse_spec. destruct (traversal_throws ast) eqn:Hthrows.
    + intros [= <-] Hf Hall. simpl.
      intros k [->%elem_of_singleton|Hk]%elem_of_union; auto.
    + simpl. intros Hl Hf Hall.
      eapply process_imports_reachable; [exact IH | exact Hparse | done
                                         | exact Hf | done | exact Hl |].
      simpl. intros k [->%elem_of_singleton|Hk]%elem_of_union; auto.
  - intros [= <-] Hf Hall. simpl.
    intros k [->%elem_of_singleton|Hk]%elem_of_union; auto.
Qed.

(** *** The two maps have the same keys *)

Lemma keys_set_same k v v' (m m' : JsMap.t) :
  JsMap.keys m = JsMap.keys m' ->
  JsMap.keys (JsMap.set k v m) = JsMap.keys (JsMap.set k v' m').
Proof.
  intros Heq. destruct (decide (k ∈ JsMap.keys m)) as [Hin|Hin].
  - rewrite !JsMapFacts.keys_set_in; [done | by rewrite <- Heq | done].
  - rewrite !JsMapFacts.keys_set_notin; [by rewrite Heq | by rewrite <- Heq
                                         | done].
Qed.

Lemma process_imports_same_keys rec f :
  (forall p st st',
      rec p st = Some st' ->
      JsMap.keys (dependencies st) = JsMap.keys (exports st) ->
      JsMap.keys (dependencies st') = JsMap.keys (exports st')) ->
  forall sources st st',
    loop rec f sources st = Some st' ->
    JsMap.keys (dependencies st) = JsMap.keys (exports st) ->
    JsMap.keys (dependencies st') = JsMap.keys (exports st').
Proof.
  intros Hrec. induction sources as [|src rest IH]; intros st st'; simpl.
  - by intros [= <-].
  - destruct (resolve f src) as [p|]; [| apply IH].
    destruct (truthy p); [| apply IH].
    destruct (negb _).
    + destruct (rec p _) as [st2|] eqn:H2; [| done].
      intros Hl Heq. eapply IH; [exact Hl |].
      eapply Hrec; [exact H2 |]. simpl.
      by rewrite JsMapFacts.keys_add_to.
    + intros Hl Heq. eapply IH; [exact Hl |]. simpl.
      by rewrite JsMapFacts.keys_add_to.
Qed.

Lemma buildDependencyTree_same_keys fuel :
  forall f st st',
    build fuel f st = Some st' ->
    JsMap.keys (dependencies st) = JsMap.keys (exports st) ->
    JsMap.keys (dependencies st') = JsMap.keys (exports st').
Proof.
  induction fuel as [|fuel IH]; intros f st st'; [done |]. simpl.
  destruct (bool_decide _); [by intros [= <-] |].
  destruct (parse f) as [ast|]; [| by intros [= <-]].
  rewrite traverse_spec. destruct (traversal_throws ast).
  - intros [= <-] Heq. simpl.
    rewrite keys_foldl_add_to. by apply keys_set_same.
  - simpl. intros Hl Heq.
    eapply process_imports_same_keys; [exact IH | exact Hl |]. simpl.
    rewrite keys_foldl_add_to. by apply keys_set_same.
Qed.

(** *** A run always returns *)

Lemma analyzeFileChanges_returns fuel entryFile changedFile ct modifiedExports :
  size fs < fuel ->
  exists st tree visited',
    build fuel entryFile initial_state = Some st
    /\ analyzeImpact (dependencies st) (exports st)
         (default [] modifiedExports) fuel changedFile ct ∅
       = Some (tree, visited')
    /\ run fuel entryFile changedFile ct modifiedExports = Some tree.
Proof.
  intros Hfuel.
  destruct (build_from_initial cwd path_resolve path_dirname path_join fs
              fuel entryFile Hfuel) as (st & Hb & Hwf & Hentry & Hrec).
  pose proof (built_graph_length _ _ _ _ _ st Hwf Hrec) as Hlen.
  destruct (analyzeImpact_returns (dependencies st) (exports st)
              (default [] modifiedExports) fuel changedFile ct ∅)
    as (tree & v' & Hi); [lia |].
  exists st, tree, v'. unfold analyzeFileChanges. by rewrite Hb, Hi.
Qed.
End BuildMore.

(** ** The rendering of the tree *)

Lemma DependencyNode_nested_ind (P : DependencyNode -> Prop) :
  (forall f ct r cs, Forall P cs -> P (MkNode f ct r cs)) ->
  forall n, P n.
Proof.
  intros H. fix IH 1. intros [f ct r cs]. apply H.
  induction cs as [|c cs IHcs]; constructor; [apply IH | apply IHcs].
Qed.

Lemma string_app_assoc (a b c : string) : (a +:+ b) +:+ c = a +:+ (b +:+ c).
Proof.
  induction a as [|x a IH]; [done |].
  change (String x ((a +:+ b) +:+ c) = String x (a +:+ (b +:+ c))).
  by f_equal.
Qed.

Lemma printTree_unfold f ct r cs prefix :
  printTree (MkNode f ct r cs) prefix
  = [prefix +:+ f; prefix +:+ "├─ Change: " +:+ ct]
    ++ match r with
       | Some r' => if truthy r' then [prefix +:+ "├─ Reason: " +:+ r'] else []
       | None => []
       end
    ++ (if 0 <? length cs
        then (prefix +:+ "└─ Affected files:")
             :: printChildren (length cs) prefix cs 0
        else []).
Proof. reflexivity. Qed.

Lemma printChildren_cons len prefix child rest index :
  printChildren len prefix (child :: rest) index
  = printTree child
      (prefix +:+ "    " +:+ (if index =? len - 1 then "└─ " else "├─ "))
    ++ printChildren len prefix rest (S index).
Proof. reflexivity. Qed.

Lemma printTree_indent n :
  forall p q, printTree n (p +:+ q) = (fun l => p +:+ l) <$> printTree n q.
Proof.
  induction n as [f ct r cs IH] using DependencyNode_nested_ind.
  intros p q. rewrite !printTree_unfold, !fmap_app. f_equal; [| f_equal].
  - simpl. by rewrite !string_app_assoc.
  - destruct r as [r'|]; [| done]. destruct (truthy r'); [| done].
    simpl. by rewrite string_app_assoc.
  - destruct (0 <? length cs); [| done]. rewrite fmap_cons.
    f_equal; [by rewrite string_app_assoc |].
    generalize (length cs) as len. intros len. generalize 0 as index.
    induction IH as [|c cs' Hc _ IHcs]; intros index; [done |].
    rewrite !printChildren_cons, fmap_app, IHcs. f_equal.
    rewrite string_app_assoc. apply Hc.
Qed.

Lemma printChildren_length len prefix cs :
  Forall (fun c => forall p,
            length (printTree c p) = sum_list_with own_lines (nodes c)) cs ->
  forall index,
    length (printChildren len prefix cs index)
    = sum_list_with own_lines (flat_map nodes cs).
Proof.
  induction 1 as [|c cs' Hc _ IH]; intros index; [done |].
  rewrite printChildren_cons, length_app, Hc, IH. simpl.
  by rewrite sum_list_with_app.
Qed.

Lemma printTree_length n :
  forall p, length (printTree n p) = sum_list_with own_lines (nodes n).
Proof.
  induction n as [f ct r cs IH] using DependencyNode_nested_ind.
  intros p. rewrite printTree_unfold, nodes_unfold.
  assert (Hcs : length (if 0 <? length cs
                        then (p +:+ "└─ Affected files:")
                             :: printChildren (length cs) p cs 0
                        else [])
                = (if 0 <? length cs then 1 else 0)
                  + sum_list_with own_lines
                      (descendants (MkNode f ct r cs))).
  { unfold descendants. cbn [children].
    destruct (0 <? length cs) eqn:Hlen.
    - cbn [length]. by rewrite (printChildren_length _ _ _ IH).
    - by destruct cs. }
  rewrite !length_app, Hcs. cbn [sum_list_with].
  set (below := sum_list_with own_lines _).
  unfold own_lines. cbn [reason children length].
  destruct r as [r'|]; [destruct (truthy r') |]; cbn [length]; lia.
Qed.

(** ** Further guarantees of the impact analyzer *)

(** X1. The files of the nodes below the root are pairwise distinct, and
    none of them was in the visited set the analysis started from. *)
Theorem files_below_root_distinct_and_new
    g exps modifiedExports fuel changedFile ct visited :
  length g < fuel ->
  exists n visited',
    analyzeImpact g exps modifiedExports fuel changedFile ct visited
    = Some (n, visited')
    /\ NoDup (file <$> descendants n)
    /\ forall d, d ∈ descendants n -> file d ∉ visited.
Proof.
  intros Hfuel.
  destruct (analyzeImpact_returns g exps modifiedExports fuel changedFile ct
              visited Hfuel) as (n & v' & Hi).
  exists n, v'. split; [done |].
  apply analyzeImpact_fresh in Hi as (_ & Hnd & Hin). split; [done |].
  intros d Hd. apply (Hin (file d)). apply list_elem_of_fmap. by exists d.
Qed.

(** X2. When the visited set the analysis starts from holds the changed
    file, no file appears twice in the whole tree, the root included. *)
Theorem whole_tree_distinct_if_root_marked
    g exps modifiedExports fuel changedFile ct visited :
  changedFile ∈ visited ->
  length g < fuel ->
  exists n visited',
    analyzeImpact g exps modifiedExports fuel changedFile ct visited
    = Some (n, visited')
    /\ NoDup (file <$> nodes n).
Proof.
  intros Hroot Hfuel.
  destruct (analyzeImpact_returns g exps modifiedExports fuel changedFile ct
              visited Hfuel) as (n & v' & Hi).
  exists n, v'. split; [done |].
  by eapply whole_tree_distinct_when_root_marked.
Qed.

(** X3. The visited set an analysis leaves is the one it started from
    together with the files of the nodes below the root, and nothing
    else. *)
Theorem visited_after_is_visited_plus_tree
    g exps modifiedExports fuel changedFile ct visited :
  length g < fuel ->
  exists n visited',
    analyzeImpact g exps modifiedExports fuel changedFile ct visited
    = Some (n, visited')
    /\ forall x, x ∈ visited' <-> x ∈ visited \/ x ∈ file <$> descendants n.
Proof.
  intros Hfuel.
  destruct (analyzeImpact_returns g exps modifiedExports fuel changedFile ct
              visited Hfuel) as (n & v' & Hi).
  exists n, v'. split; [done |]. intros x. split.
  - by eapply analyzeImpact_reported.
  - apply analyzeImpact_fresh in Hi as (Hsub & _ & Hin).
    intros [Hx|Hx]; [by apply Hsub | by apply Hin].
Qed.

(** X4. Every child in the tree imports the file of its parent: the tree
    follows the edges of the graph backwards. *)
Theorem children_import_their_parent
    g exps modifiedExports fuel changedFile ct visited :
  length g < fuel ->
  exists n visited',
    analyzeImpact g exps modifiedExports fuel changedFile ct visited
    = Some (n, visited')
    /\ forall m c, m ∈ nodes n -> c ∈ children m ->
                   direct_dependent g (file c) (file m).
Proof.
  intros Hfuel.
  destruct (analyzeImpact_returns g exps modifiedExports fuel changedFile ct
              visited Hfuel) as (n & v' & Hi).
  exists n, v'. split; [done |].
  apply analyzeImpact_parent_edges in Hi. rewrite Forall_forall in Hi.
  intros m c Hm Hc. by apply (Hi m Hm).
Qed.

(** X5. Every node below the root is a file with an entry in the graph,
    and there are at most as many of them as the graph has entries. *)
Theorem tree_files_are_graph_keys
    g exps modifiedExports fuel changedFile ct visited :
  length g < fuel ->
  exists n visited',
    analyzeImpact g exps modifiedExports fuel changedFile ct visited
    = Some (n, visited')
    /\ (forall d, d ∈ descendants n -> file d ∈ JsMap.keys g)
    /\ length (descendants n) <= length g.
Proof.
  intros Hfuel.
  destruct (analyzeImpact_returns g exps modifiedExports fuel changedFile ct
              visited Hfuel) as (n & v' & Hi).
  exists n, v'. split; [done |].
  pose proof (analyzeImpact_files_are_keys _ _ _ _ _ _ _ _ _ Hi) as Hk.
  rewrite Forall_forall in Hk. split; [exact Hk |].
  apply analyzeImpact_fresh in Hi as (_ & Hnd & _).
  rewrite <- (length_fmap file).
  etrans; [apply (NoDup_length_le_size _ (list_to_set (JsMap.keys g)) Hnd) |].
  - intros x (d & -> & Hd)%list_elem_of_fmap.
    apply elem_of_list_to_set. by apply Hk.
  - etrans; [apply size_list_to_set_le |].
    unfold JsMap.keys. by rewrite length_fmap.
Qed.

(** X6. The files below the root are exactly the files that depend on the
    changed file through a chain of imports that avoids the initial
    visited set; from the empty set, exactly the transitive dependents. *)
Theorem tree_is_exactly_the_impacted_files
    g exps modifiedExports fuel changedFile ct visited :
  length g < fuel ->
  exists n visited',
    analyzeImpact g exps modifiedExports fuel changedFile ct visited
    = Some (n, visited')
    /\ forall x, x ∈ file <$> descendants n
                 <-> impacted g visited changedFile x.
Proof.
  intros Hfuel.
  destruct (analyzeImpact_returns g exps modifiedExports fuel changedFile ct
              visited Hfuel) as (n & v' & Hi).
  exists n, v'. split; [done |]. intros x. split.
  - intros (d & -> & Hd)%list_elem_of_fmap.
    apply analyzeImpact_descendants_impacted in Hi.
    rewrite Forall_forall in Hi. by apply Hi.
  - by eapply analyzeImpact_impacted_reported.
Qed.

Lemma determineImpactReason_add changedFile f modifiedExports exps :
  determineImpactReason changedFile f "add" modifiedExports exps
  = Some "New file was added".
Proof. reflexivity. Qed.

Lemma determineImpactReason_other changedFile f ct modifiedExports exps :
  ct <> "delete" -> ct <> "add" -> ct <> "modify" ->
  determineImpactReason changedFile f ct modifiedExports exps
  = Some "File was modified".
Proof.
  intros Hd Ha Hm. unfold determineImpactReason.
  apply String.eqb_neq in Hd, Ha, Hm. by rewrite Hd, Ha, Hm.
Qed.

(** X7. Under [add], every child of the root is a direct dependent of the
    changed file and carries the reason ["New file was added"]. *)
Theorem add_reason_of_root_children
    g exps modifiedExports fuel changedFile visited :
  length g < fuel ->
  exists n visited',
    analyzeImpact g exps modifiedExports fuel changedFile "add" visited
    = Some (n, visited')
    /\ forall c, c ∈ children n ->
         direct_dependent g (file c) changedFile
         /\ reason c = Some "New file was added".
Proof.
  intros Hfuel.
  destruct (analyzeImpact_returns g exps modifiedExports fuel changedFile
              "add" visited Hfuel) as (n & v' & Hi).
  exists n, v'. split; [done |].
  apply Forall_forall.
  eapply analyzeImpact_children_Forall; [exact Hi |].
  intros f deps r child Hin Hdep Hr <-. simpl.
  rewrite determineImpactReason_add in Hr. split; [by exists deps |].
  congruence.
Qed.

(** X8. For a change kind that is none of [delete], [add] and [modify]
    (the command line passes the kind on unchecked), every node below
    the root carries the reason ["File was modified"]. *)
Theorem other_change_kind_file_was_modified
    g exps modifiedExports fuel changedFile ct visited :
  ct <> "delete" -> ct <> "add" -> ct <> "modify" ->
  length g < fuel ->
  exists n visited',
    analyzeImpact g exps modifiedExports fuel changedFile ct visited
    = Some (n, visited')
    /\ forall d, d ∈ descendants n -> reason d = Some "File was modified".
Proof.
  intros Hd Ha Hm Hfuel.
  destruct (analyzeImpact_returns g exps modifiedExports fuel changedFile ct
              visited Hfuel) as (n & v' & Hi).
  exists n, v'. split; [done |].
  assert (Hch : forall c, c ∈ children n ->
                          reason c = Some "File was modified").
  { apply Forall_forall.
    eapply analyzeImpact_children_Forall; [exact Hi |].
    intros f deps r child _ _ Hr _. simpl.
    rewrite determineImpactReason_other in Hr by done. congruence. }
  intros d (c & Hc & Hdc)%elem_of_flat_map.
  rewrite nodes_unfold in Hdc. apply elem_of_cons in Hdc as [->|Hdc].
  - by apply Hch.
  - by eapply analyzeImpact_below_children.
Qed.

(** X9. When every file that imports the changed file is already in the
    visited set (in particular when no file imports it), the result is
    the root alone and the visited set is unchanged. *)
Theorem no_unvisited_dependent_root_alone
    g exps modifiedExports fuel changedFile ct visited :
  (forall F, direct_dependent g F changedFile -> F ∈ visited) ->
  0 < fuel ->
  analyzeImpact g exps modifiedExports fuel changedFile ct visited
  = Some (MkNode changedFile ct None [], visited).
Proof.
  intros Hall Hfuel. destruct fuel as [|fuel]; [lia |]. simpl.
  rewrite scan_dependents_none; [done |].
  intros F deps Hin Hdep. apply Hall. by exists deps.
Qed.

(** X10. Which files are reported, and where in the tree, does not depend
    on the change kind, the modified-export names or the export table:
    two analyses of the same graph from the same visited set differ in
    their labels only. *)
Theorem labels_do_not_steer_the_walk
    g exps1 modifiedExports1 ct1 exps2 modifiedExports2 ct2
    fuel changedFile visited :
  length g < fuel ->
  exists n1 n2 visited',
    analyzeImpact g exps1 modifiedExports1 fuel changedFile ct1 visited
    = Some (n1, visited')
    /\ analyzeImpact g exps2 modifiedExports2 fuel changedFile ct2 visited
       = Some (n2, visited')
    /\ skeleton n1 = skeleton n2.
Proof.
  intros Hfuel.
  destruct (analyzeImpact_returns g exps1 modifiedExports1 fuel changedFile
              ct1 visited Hfuel) as (n1 & v1 & H1).
  destruct (analyzeImpact_returns g exps2 modifiedExports2 fuel changedFile
              ct2 visited Hfuel) as (n2 & v2 & H2).
  destruct (analyzeImpact_skeleton _ _ _ _ _ _ _ _ _ _ _ _ _ _ H1 H2)
    as [Hsk <-].
  by exists n1, n2, v1.
Qed.

(** ** Further guarantees of the construction and of the resolver *)

Section PipelineMore.
Variable cwd : string.
Variable path_resolve : list string -> string.
Variable path_dirname : string -> string.
Variable path_join : string -> string -> string.
Variable fs : gmap string FsEntry.

Abbreviation resolve :=
  (resolveImportPath cwd path_resolve path_dirname path_join fs).
Abbreviation build :=
  (buildDependencyTree cwd path_resolve path_dirname path_join fs).
Abbreviation parse := (read_and_parse fs).
Abbreviation reachable :=
  (reachable cwd path_resolve path_dirname path_join fs).
Abbreviation run :=
  (analyzeFileChanges cwd path_resolve path_dirname path_join fs).

Lemma build_from_initial_reachable fuel entryFile :
  size fs < fuel ->
  exists st,
    build fuel entryFile initial_state = Some st
    /\ wf st
    /\ (forall k, k ∈ processedFiles st
                  -> recorded cwd path_resolve path_dirname path_join fs st k)
    /\ (forall k, k ∈ processedFiles st <-> reachable entryFile k).
Proof.
  intros Hfuel.
  destruct (build_from_initial cwd path_resolve path_dirname path_join fs
              fuel entryFile Hfuel) as (st & Hb & Hwf & Hentry & Hrec).
  exists st. split_and!; try done. intros k. split.
  - eapply buildDependencyTree_reachable; [exact Hb | constructor |].
    simpl. by intros k' ?%not_elem_of_empty.
  - by apply reachable_processed.
Qed.

(** X11. The files a construction processes are exactly the files
    reachable from the entry through the resolved imports of files that
    could be read, parsed and traversed to the end: the imports of a file
    whose traversal throws lead nowhere. *)
Theorem processed_files_are_the_reachable_files fuel entryFile :
  size fs < fuel ->
  exists st,
    build fuel entryFile initial_state = Some st
    /\ forall k, k ∈ processedFiles st <-> reachable entryFile k.
Proof.
  intros Hfuel.
  destruct (build_from_initial_reachable fuel entryFile Hfuel)
    as (st & Hb & _ & _ & Hreach).
  by exists st.
Qed.

(** X12. The graph and the export table have the same keys in the same
    order: the files that could be read and parsed among those reachable
    through the imports of files traversed to the end.  A file whose
    traversal throws is a key; what only it imports is not. *)
Theorem graph_keys_are_reachable_parsed_files fuel entryFile :
  size fs < fuel ->
  exists st,
    build fuel entryFile initial_state = Some st
    /\ JsMap.keys (dependencies st) = JsMap.keys (exports st)
    /\ forall k, k ∈ JsMap.keys (dependencies st)
                 <-> reachable entryFile k /\ is_Some (parse k).
Proof.
  intros Hfuel.
  destruct (build_from_initial_reachable fuel entryFile Hfuel)
    as (st & Hb & Hwf & Hrec & Hreach).
  exists st. split; [done |]. split.
  - by eapply buildDependencyTree_same_keys.
  - intros k. split.
    + intros Hk. split.
      * apply Hreach. destruct Hwf as (Hkd & _). by apply Hkd.
      * destruct (recorded_key _ _ _ _ _ st k Hwf Hrec) as [ast ->]; auto.
    + intros [Hk [ast Hast]]. apply Hreach in Hk.
      specialize (Hrec k Hk). unfold recorded in Hrec.
      rewrite Hast in Hrec. destruct Hrec as (Hd & _).
      destruct (decide (k ∈ JsMap.keys (dependencies st))) as [|Hn];
        [done |].
      apply JsMapFacts.get_None in Hn. congruence.
Qed.

(** X13. The target of every edge was processed; it has an entry of its
    own in the graph unless it could not be read or parsed, in which case
    it has none. *)
Theorem edge_targets_have_entries_unless_unparsed fuel entryFile :
  size fs < fuel ->
  exists st,
    build fuel entryFile initial_state = Some st
    /\ forall f ds p,
         (f, ds) ∈ dependencies st -> p ∈ ds ->
         p ∈ processedFiles st
         /\ ((is_Some (parse p) /\ p ∈ JsMap.keys (dependencies st))
             \/ (parse p = None /\ p ∉ JsMap.keys (dependencies st))).
Proof.
  intros Hfuel.
  destruct (build_from_initial_reachable fuel entryFile Hfuel)
    as (st & Hb & Hwf & Hrec & Hreach).
  exists st. split; [done |]. intros f ds p Hin Hp.
  assert (Hk : f ∈ JsMap.keys (dependencies st)).
  { apply list_elem_of_fmap. by exists (f, ds). }
  assert (Hget : JsMap.get f (dependencies st) = Some ds).
  { apply JsMapFacts.elem_of_get; [apply Hwf | done]. }
  assert (Hf : f ∈ processedFiles st)
    by (destruct Hwf as (Hkd & _); by apply Hkd).
  pose proof (Hrec f Hf) as Hrf. unfold recorded in Hrf.
  destruct (parse f) as [ast|] eqn:Hparse; [| destruct Hrf; congruence].
  destruct Hrf as (Hd & _ & Hproc). rewrite Hget in Hd. injection Hd as ->.
  rewrite JsSetFacts.elem_of_of_list in Hp.
  pose proof (Hproc p Hp) as Hpp. split; [done |].
  pose proof (Hrec p Hpp) as Hrp. unfold recorded in Hrp.
  destruct (parse p) as [astp|].
  - left. split; [by eexists |]. destruct Hrp as (Hd & _).
    destruct (decide (p ∈ JsMap.keys (dependencies st))) as [|Hn]; [done |].
    apply JsMapFacts.get_None in Hn. congruence.
  - right. split; [done |]. destruct Hrp as (Hd & _).
    by apply JsMapFacts.get_None.
Qed.

(** X14. When the entry file cannot be read or parsed, nothing is
    recorded and the result of a run is the root alone, whatever the
    changed file is. *)
Theorem unreadable_entry_gives_root_alone
    fuel entryFile changedFile ct modifiedExports :
  parse entryFile = None ->
  0 < fuel ->
  build fuel entryFile initial_state
  = Some (MkBuildState [] [] {[entryFile]})
  /\ run fuel entryFile changedFile ct modifiedExports
     = Some (MkNode changedFile ct None []).
Proof.
  intros Hparse Hfuel. destruct fuel as [|fuel]; [lia |].
  assert (Hb : build (S fuel) entryFile initial_state
               = Some (MkBuildState [] [] {[entryFile]})).
  { simpl. rewrite Hparse. do 2 f_equal. set_solver. }
  split; [exact Hb |]. unfold analyzeFileChanges. by rewrite Hb.
Qed.

Lemma foldl_add_to_singleton f names : forall v,
  foldl (fun m name => JsMap.add_to f name m) [(f, v)] names
  = [(f, foldl (fun v x => JsSet.add x v) v names)].
Proof.
  induction names as [|x names IH]; intros v; simpl; [done |].
  by rewrite String.eqb_refl, IH.
Qed.

(** X22. When the entry file parses and its traversal throws, the
    construction ends with the entry alone: an empty import set, the
    export names visited before the exception, no other file processed.
    The result of a run is then the root alone, whatever the changed
    file is. *)
Theorem throwing_entry_keeps_its_entries_only
    fuel entryFile ast changedFile ct modifiedExports :
  parse entryFile = Some ast ->
  traversal_throws ast = true ->
  0 < fuel ->
  build fuel entryFile initial_state
  = Some (MkBuildState [(entryFile, [])]
            [(entryFile,
              JsSet.of_list (export_names (visited_statements ast)))]
            {[entryFile]})
  /\ run fuel entryFile changedFile ct modifiedExports
     = Some (MkNode changedFile ct None []).
Proof.
  intros Hparse Hthrows Hfuel. destruct fuel as [|fuel]; [lia |].
  assert (Hb : build (S fuel) entryFile initial_state
               = Some (MkBuildState [(entryFile, [])]
                         [(entryFile,
                           JsSet.of_list
                             (export_names (visited_statements ast)))]
                         {[entryFile]})).
  { simpl. rewrite Hparse, traverse_spec, Hthrows.
    rewrite foldl_add_to_singleton. do 2 f_equal. set_solver. }
  split; [exact Hb |]. unfold analyzeFileChanges. by rewrite Hb.
Qed.

(** X15. When the entry file can be read and parsed, it is the first key
    of the graph and of the export table. *)
Theorem entry_is_the_first_key fuel entryFile ast :
  parse entryFile = Some ast ->
  size fs < fuel ->
  exists st,
    build fuel entryFile initial_state = Some st
    /\ head (JsMap.keys (dependencies st)) = Some entryFile
    /\ head (JsMap.keys (exports st)) = Some entryFile.
Proof.
  intros Hparse Hfuel.
  destruct (build_from_initial cwd path_resolve path_dirname path_join fs
              fuel entryFile Hfuel) as (st & Hb & _).
  exists st. split; [done |].
  assert (Hhead : head (JsMap.keys (dependencies st)) = Some entryFile).
  { destruct fuel as [|fuel]; [done |]. simpl in Hb. rewrite Hparse in Hb.
    rewrite traverse_spec in Hb.
    destruct (traversal_throws ast); simpl in Hb; [by injection Hb as <- |].
    apply process_imports_keys in Hb; [| apply buildDependencyTree_keys].
    simpl in Hb. destruct Hb as [k ->]. done. }
  split; [done |].
  by rewrite <- (buildDependencyTree_same_keys _ _ _ _ _ _ _ _ _ Hb eq_refl).
Qed.

(** X16. The importing file matters to the resolver only through its
    directory, and only for a relative specifier: two files resolve a
    specifier alike when it is not relative or when they lie in the same
    directory. *)
Theorem resolution_depends_on_the_directory_only f1 f2 specifier :
  (relative specifier = true -> path_dirname f1 = path_dirname f2) ->
  resolve f1 specifier = resolve f2 specifier.
Proof.
  unfold resolveImportPath, relative. intros Hdir.
  destruct (startsWith specifier "@/"); [by rewrite ?andb_false_r |].
  destruct (startsWith specifier "."); [| done].
  by rewrite Hdir.
Qed.
End PipelineMore.

(** ** Guarantees of the command line *)

Lemma string_app_nil_r (s : string) : s +:+ "" = s.
Proof.
  induction s as [|x s IH]; [done |].
  change (String x (s +:+ "") = String x s). by f_equal.
Qed.

(** X17. Printing a tree under a prefix gives the lines of printing it
    at the top level, each with the prefix in front: the indentation of a
    subtree is uniform. *)
Theorem printTree_prefixes_every_line n prefix :
  printTree n prefix = (fun l => prefix +:+ l) <$> printTree n "".
Proof.
  rewrite <- (string_app_nil_r prefix) at 1. apply printTree_indent.
Qed.

Lemma affected_own_lines (l : list DependencyNode) :
  Forall affected_with_reason l ->
  sum_list_with own_lines l
  = 3 * length l + length (filter (fun m => 0 < length (children m)) l).
Proof.
  induction 1 as [|m l (_ & r & Hr & Hne) _ IH]; [done |].
  rewrite filter_cons. cbn [sum_list_with length]. rewrite IH.
  unfold own_lines. rewrite Hr.
  apply truthy_nonempty in Hne. rewrite Hne.
  destruct (decide (0 < length (children m))) as [Hc|Hc].
  - apply Nat.ltb_lt in Hc as Hb. rewrite Hb. cbn [length]. lia.
  - apply Nat.ltb_nlt in Hc as Hb. rewrite Hb. lia.
Qed.

(** X18. The rendering of an analysis result has one line for the file
    and one for the change kind of every node, one reason line for every
    node but the root, and one heading line for every node that has
    children. *)
Theorem rendering_line_count
    g exps modifiedExports fuel changedFile ct visited :
  length g < fuel ->
  exists n visited',
    analyzeImpact g exps modifiedExports fuel changedFile ct visited
    = Some (n, visited')
    /\ forall prefix,
         length (printTree n prefix)
         = 3 * length (nodes n) - 1
           + length (filter (fun m => 0 < length (children m)) (nodes n)).
Proof.
  intros Hfuel.
  destruct (analyzeImpact_returns g exps modifiedExports fuel changedFile ct
              visited Hfuel) as (n & v' & Hi).
  exists n, v'. split; [done |]. intros prefix.
  rewrite printTree_length, nodes_unfold, filter_cons.
  cbn [sum_list_with length].
  rewrite (affected_own_lines _ (analyzeImpact_descendants_affected
                                   _ _ _ _ _ _ _ _ _ Hi)).
  destruct (analyzeImpact_root _ _ _ _ _ _ _ _ _ Hi) as (_ & _ & Hr).
  unfold own_lines. rewrite Hr.
  destruct (decide (0 < length (children n))) as [Hc|Hc].
  - apply Nat.ltb_lt in Hc as Hb. rewrite Hb. cbn [length]. lia.
  - apply Nat.ltb_nlt in Hc as Hb. rewrite Hb. lia.
Qed.

(** X19. With the three required options given, the script never exits
    with an error, whatever the project holds: it prints the two heading
    lines and then the tree, whose root is the changed file resolved
    against the working directory, with the change kind as given. *)
Theorem main_prints_the_tree
    cwd path_resolve path_dirname path_join fs fuel
    entryPath filePath kind exportsOption :
  entryPath <> "" -> filePath <> "" -> kind <> "" ->
  size fs < fuel ->
  exists tree,
    Cli.main cwd path_resolve path_dirname path_join fs fuel
      (Cli.MkOptions (Some entryPath) (Some filePath) (Some kind)
         exportsOption)
    = Some (Cli.Printed
              ([String "010"%char "File Change Analysis Result:";
                "==========================="]
               ++ printTree tree ""))
    /\ file tree = path_resolve [cwd; filePath]
    /\ changeType tree = kind
    /\ reason tree = None.
Proof.
  intros He Hf Ht Hfuel. unfold Cli.main, Cli.given. cbn [Cli.entry Cli.file
    Cli.type Cli.exports default].
  apply truthy_nonempty in He, Hf, Ht. rewrite He, Hf, Ht.
  cbn [negb orb]. cbv [id].
  destruct (analyzeFileChanges_returns cwd path_resolve path_dirname
              path_join fs fuel (path_resolve [cwd; entryPath])
              (path_resolve [cwd; filePath]) kind
              (Some match exportsOption with
                    | Some x => split ","%char x
                    | None => []
                    end) Hfuel)
    as (st & tree & v' & _ & Hi & ->).
  exists tree. split; [done |].
  by apply analyzeImpact_root in Hi.
Qed.

(** ** The further guarantees on the sample projects *)

Lemma files_below_root_distinct_and_new_witness :
  length Examples.diamond_graph < 5
  /\ exists n visited',
       analyzeImpact Examples.diamond_graph Examples.diamond_exports []
         5 "/p/c.ts" "delete" ∅ = Some (n, visited')
       /\ NoDup (file <$> descendants n)
       /\ forall d, d ∈ descendants n -> file d ∉ (∅ : gset string).
Proof.
  split; [simpl; lia |].
  apply (files_below_root_distinct_and_new Examples.diamond_graph
           Examples.diamond_exports [] 5 "/p/c.ts" "delete" ∅).
  simpl; lia.
Defined.

Lemma whole_tree_distinct_if_root_marked_witness :
  "/p/a.ts" ∈ ({["/p/a.ts"]} : gset string)
  /\ length Examples.cycle_graph < 3
  /\ exists n visited',
       analyzeImpact Examples.cycle_graph [] [] 3 "/p/a.ts" "modify"
         {["/p/a.ts"]} = Some (n, visited')
       /\ NoDup (file <$> nodes n).
Proof.
  assert (H : "/p/a.ts" ∈ ({["/p/a.ts"]} : gset string))
    by (vm_compute; reflexivity).
  split; [exact H |]. split; [simpl; lia |].
  apply (whole_tree_distinct_if_root_marked Examples.cycle_graph [] [] 3
           "/p/a.ts" "modify" {["/p/a.ts"]} H).
  simpl; lia.
Defined.

Lemma visited_after_is_visited_plus_tree_witness :
  length Examples.diamond_graph < 5
  /\ exists n visited',
       analyzeImpact Examples.diamond_graph Examples.diamond_exports []
         5 "/p/c.ts" "delete" ∅ = Some (n, visited')
       /\ forall x, x ∈ visited'
                    <-> x ∈ (∅ : gset string) \/ x ∈ file <$> descendants n.
Proof.
  split; [simpl; lia |].
  apply (visited_after_is_visited_plus_tree Examples.diamond_graph
           Examples.diamond_exports [] 5 "/p/c.ts" "delete" ∅).
  simpl; lia.
Defined.

Lemma children_import_their_parent_witness :
  length Examples.diamond_graph < 5
  /\ exists n visited',
       analyzeImpact Examples.diamond_graph Examples.diamond_exports []
         5 "/p/c.ts" "delete" ∅ = Some (n, visited')
       /\ forall m c, m ∈ nodes n -> c ∈ children m ->
                      direct_dependent Examples.diamond_graph
                        (file c) (file m).
Proof.
  split; [simpl; lia |].
  apply (children_import_their_parent Examples.diamond_graph
           Examples.diamond_exports [] 5 "/p/c.ts" "delete" ∅).
  simpl; lia.
Defined.

Lemma tree_files_are_graph_keys_witness :
  length Examples.diamond_graph < 5
  /\ exists n visited',
       analyzeImpact Examples.diamond_graph Examples.diamond_exports []
         5 "/p/c.ts" "delete" ∅ = Some (n, visited')
       /\ (forall d, d ∈ descendants n ->
                     file d ∈ JsMap.keys Examples.diamond_graph)
       /\ length (descendants n) <= length Examples.diamond_graph.
Proof.
  split; [simpl; lia |].
  apply (tree_files_are_graph_keys Examples.diamond_graph
           Examples.diamond_exports [] 5 "/p/c.ts" "delete" ∅).
  simpl; lia.
Defined.

Lemma tree_is_exactly_the_impacted_files_witness :
  length Examples.diamond_graph < 5
  /\ exists n visited',
       analyzeImpact Examples.diamond_graph Examples.diamond_exports []
         5 "/p/c.ts" "delete" ∅ = Some (n, visited')
       /\ forall x, x ∈ file <$> descendants n
                    <-> impacted Examples.diamond_graph ∅ "/p/c.ts" x.
Proof.
  split; [simpl; lia |].
  apply (tree_is_exactly_the_impacted_files Examples.diamond_graph
           Examples.diamond_exports [] 5 "/p/c.ts" "delete" ∅).
  simpl; lia.
Defined.

Lemma add_reason_of_root_children_witness :
  length Examples.sample_graph < 6
  /\ exists n visited',
       analyzeImpact Examples.sample_graph Examples.sample_exports []
         6 "/p/src/a.ts" "add" ∅ = Some (n, visited')
       /\ forall c, c ∈ children n ->
            direct_dependent Examples.sample_graph (file c) "/p/src/a.ts"
            /\ reason c = Some "New file was added".
Proof.
  split; [simpl; lia |].
  apply (add_reason_of_root_children Examples.sample_graph
           Examples.sample_exports [] 6 "/p/src/a.ts" ∅).
  simpl; lia.
Defined.

Lemma other_change_kind_file_was_modified_witness :
  "rename" <> "delete" /\ "rename" <> "add" /\ "rename" <> "modify"
  /\ length Examples.diamond_graph < 5
  /\ exists n visited',
       analyzeImpact Examples.diamond_graph Examples.diamond_exports ["foo"]
         5 "/p/c.ts" "rename" ∅ = Some (n, visited')
       /\ forall d, d ∈ descendants n ->
                    reason d = Some "File was modified".
Proof.
  assert (Hd : "rename" <> "delete") by discriminate.
  assert (Ha : "rename" <> "add") by discriminate.
  assert (Hm : "rename" <> "modify") by discriminate.
  split; [exact Hd |]. split; [exact Ha |]. split; [exact Hm |].
  split; [simpl; lia |].
  apply (other_change_kind_file_was_modified Examples.diamond_graph
           Examples.diamond_exports ["foo"] 5 "/p/c.ts" "rename" ∅ Hd Ha Hm).
  simpl; lia.
Defined.

Lemma no_unvisited_dependent_root_alone_witness :
  (forall F, direct_dependent Examples.cycle_graph F "/p/a.ts" ->
             F ∈ ({["/p/b.ts"]} : gset string))
  /\ 0 < 1
  /\ analyzeImpact Examples.cycle_graph [] [] 1 "/p/a.ts" "delete"
       {["/p/b.ts"]}
     = Some (MkNode "/p/a.ts" "delete" None [], {["/p/b.ts"]}).
Proof.
  assert (H : forall F, direct_dependent Examples.cycle_graph F "/p/a.ts" ->
                        F ∈ ({["/p/b.ts"]} : gset string)).
  { intros F (deps & Hin & Hdep). apply elem_of_singleton.
    apply list_elem_of_In in Hin. simpl in Hin.
    destruct Hin as [[= <- <-]|[[= <- <-]|[]]]; [| reflexivity].
    apply list_elem_of_In in Hdep. simpl in Hdep.
    destruct Hdep as [Hdep|[]]. discriminate Hdep. }
  split; [exact H |]. split; [lia |].
  apply (no_unvisited_dependent_root_alone Examples.cycle_graph [] [] 1
           "/p/a.ts" "delete" {["/p/b.ts"]} H).
  lia.
Defined.

Lemma labels_do_not_steer_the_walk_witness :
  length Examples.diamond_graph < 5
  /\ exists n1 n2 visited',
       analyzeImpact Examples.diamond_graph Examples.diamond_exports
         ["default"] 5 "/p/c.ts" "modify" ∅ = Some (n1, visited')
       /\ analyzeImpact Examples.diamond_graph [] [] 5 "/p/c.ts" "delete" ∅
          = Some (n2, visited')
       /\ skeleton n1 = skeleton n2.
Proof.
  split; [simpl; lia |].
  apply (labels_do_not_steer_the_walk Examples.diamond_graph
           Examples.diamond_exports ["default"] "modify" [] [] "delete"
           5 "/p/c.ts" ∅).
  simpl; lia.
Defined.

Lemma processed_files_are_the_reachable_files_witness :
  size Examples.faulty < 7
  /\ exists st,
       Examples.build Examples.faulty 7 "/p/index.ts" initial_state
       = Some st
       /\ forall k, k ∈ processedFiles st
                    <-> reachable Examples.cwd (Posix.resolve Examples.cwd)
                          Posix.dirname Posix.join2 Examples.faulty
                          "/p/index.ts" k.
Proof.
  split; [vm_compute; lia |].
  apply (processed_files_are_the_reachable_files Examples.cwd
           (Posix.resolve Examples.cwd) Posix.dirname Posix.join2
           Examples.faulty 7 "/p/index.ts").
  vm_compute; lia.
Defined.

Lemma graph_keys_are_reachable_parsed_files_witness :
  size Examples.faulty < 7
  /\ exists st,
       Examples.build Examples.faulty 7 "/p/index.ts" initial_state
       = Some st
       /\ JsMap.keys (dependencies st) = JsMap.keys (exports st)
       /\ forall k, k ∈ JsMap.keys (dependencies st)
                    <-> reachable Examples.cwd (Posix.resolve Examples.cwd)
                          Posix.dirname Posix.join2 Examples.faulty
                          "/p/index.ts" k
                        /\ is_Some (read_and_parse Examples.faulty k).
Proof.
  split; [vm_compute; lia |].
  apply (graph_keys_are_reachable_parsed_files Examples.cwd
           (Posix.resolve Examples.cwd) Posix.dirname Posix.join2
           Examples.faulty 7 "/p/index.ts").
  vm_compute; lia.
Defined.

(** In the project with failing files, [b.ts] is imported only by files
    whose traversal throws: it is not reached, and has no entry. *)
Example example_faulty_unreached :
  ~ reachable Examples.cwd (Posix.resolve Examples.cwd) Posix.dirname
      Posix.join2 Examples.faulty "/p/index.ts" "/p/b.ts"
  /\ ("/p/b.ts" ∉ JsMap.keys Examples.faulty_graph)
  /\ JsMap.get "/p/t.ts" Examples.faulty_graph = Some [].
Proof.
  split; [| split; [apply (bool_decide_unpack _); by vm_compute
                   | reflexivity]].
  destruct (build_from_initial_reachable Examples.cwd
              (Posix.resolve Examples.cwd) Posix.dirname Posix.join2
              Examples.faulty 7 "/p/index.ts")
    as (st & Hb & _ & _ & Hreach); [vm_compute; lia |].
  intros Hb'%Hreach.
  change (Examples.build Examples.faulty 7 "/p/index.ts" initial_state
          = Some st) in Hb.
  rewrite example_build_faulty in Hb. injection Hb as <-.
  simpl in Hb'. by vm_compute in Hb'.
Qed.

Lemma edge_targets_have_entries_unless_unparsed_witness :
  size Examples.sample < 6
  /\ exists st,
       Examples.build Examples.sample 6 "/p/src/index.ts" initial_state
       = Some st
       /\ forall f ds p,
            (f, ds) ∈ dependencies st -> p ∈ ds ->
            p ∈ processedFiles st
            /\ ((is_Some (read_and_parse Examples.sample p)
                 /\ p ∈ JsMap.keys (dependencies st))
                \/ (read_and_parse Examples.sample p = None
                    /\ p ∉ JsMap.keys (dependencies st))).
Proof.
  split; [vm_compute; lia |].
  apply (edge_targets_have_entries_unless_unparsed Examples.cwd
           (Posix.resolve Examples.cwd) Posix.dirname Posix.join2
           Examples.sample 6 "/p/src/index.ts").
  vm_compute; lia.
Defined.

Lemma unreadable_entry_gives_root_alone_witness :
  read_and_parse Examples.sample "/p/src/broken.ts" = None
  /\ 0 < 1
  /\ Examples.build Examples.sample 1 "/p/src/broken.ts" initial_state
     = Some (MkBuildState [] [] {["/p/src/broken.ts"]})
  /\ Examples.run Examples.sample 1 "/p/src/broken.ts" "/p/src/a.ts"
       "modify" (Some ["foo"])
     = Some (MkNode "/p/src/a.ts" "modify" None []).
Proof.
  assert (H : read_and_parse Examples.sample "/p/src/broken.ts" = None)
    by (vm_compute; reflexivity).
  split; [exact H |]. split; [lia |].
  apply (unreadable_entry_gives_root_alone Examples.cwd
           (Posix.resolve Examples.cwd) Posix.dirname Posix.join2
           Examples.sample 1 "/p/src/broken.ts" "/p/src/a.ts" "modify"
           (Some ["foo"]) H).
  lia.
Defined.

Lemma throwing_entry_keeps_its_entries_only_witness :
  read_and_parse Examples.faulty "/p/u.ts"
  = Some [ExportDefaultDeclaration; TraverseThrows; ImportDeclaration "./b";
          ExportNamedDeclaration (Some (OtherDeclaration (Some "r")))]
  /\ Examples.build Examples.faulty 1 "/p/u.ts" initial_state
     = Some (MkBuildState [("/p/u.ts", [])] [("/p/u.ts", ["default"])]
               {[ "/p/u.ts" ]})
  /\ Examples.run Examples.faulty 1 "/p/u.ts" "/p/b.ts" "modify" None
     = Some (MkNode "/p/b.ts" "modify" None []).
Proof.
  split; [reflexivity |].
  apply (throwing_entry_keeps_its_entries_only Examples.cwd
           (Posix.resolve Examples.cwd) Posix.dirname Posix.join2
           Examples.faulty 1 "/p/u.ts"
           [ExportDefaultDeclaration; TraverseThrows; ImportDeclaration "./b";
            ExportNamedDeclaration (Some (OtherDeclaration (Some "r")))]
           "/p/b.ts" "modify" None);
    [reflexivity | reflexivity | lia].
Defined.

Lemma entry_is_the_first_key_witness :
  read_and_parse Examples.cycle "/p/b.ts" = Some [ImportDeclaration "./a"]
  /\ size Examples.cycle < 3
  /\ exists st,
       Examples.build Examples.cycle 3 "/p/b.ts" initial_state = Some st
       /\ head (JsMap.keys (dependencies st)) = Some "/p/b.ts"
       /\ head (JsMap.keys (exports st)) = Some "/p/b.ts".
Proof.
  assert (H : read_and_parse Examples.cycle "/p/b.ts"
              = Some [ImportDeclaration "./a"]) by (vm_compute; reflexivity).
  split; [exact H |]. split; [vm_compute; lia |].
  apply (entry_is_the_first_key Examples.cwd (Posix.resolve Examples.cwd)
           Posix.dirname Posix.join2 Examples.cycle 3 "/p/b.ts"
           [ImportDeclaration "./a"] H).
  vm_compute; lia.
Defined.

Lemma resolution_depends_on_the_directory_only_witness :
  (relative "./a" = true ->
   Posix.dirname "/p/src/index.ts" = Posix.dirname "/p/src/b.ts")
  /\ Examples.resolve Examples.sample "/p/src/index.ts" "./a"
     = Examples.resolve Examples.sample "/p/src/b.ts" "./a".
Proof.
  assert (H : relative "./a" = true ->
              Posix.dirname "/p/src/index.ts" = Posix.dirname "/p/src/b.ts")
    by (intros _; vm_compute; reflexivity).
  split; [exact H |].
  apply (resolution_depends_on_the_directory_only Examples.cwd
           (Posix.resolve Examples.cwd) Posix.dirname Posix.join2
           Examples.sample "/p/src/index.ts" "/p/src/b.ts" "./a" H).
Defined.

Lemma rendering_line_count_witness :
  length Examples.diamond_graph < 5
  /\ exists n visited',
       analyzeImpact Examples.diamond_graph Examples.diamond_exports []
         5 "/p/c.ts" "delete" ∅ = Some (n, visited')
       /\ forall prefix,
            length (printTree n prefix)
            = 3 * length (nodes n) - 1
              + length (filter (fun m => 0 < length (children m)) (nodes n)).
Proof.
  split; [simpl; lia |].
  apply (rendering_line_count Examples.diamond_graph
           Examples.diamond_exports [] 5 "/p/c.ts" "delete" ∅).
  simpl; lia.
Defined.

Lemma main_prints_the_tree_witness :
  "src/index.ts" <> "" /\ "src/a.ts" <> "" /\ "modify" <> ""
  /\ size Examples.sample < 6
  /\ exists tree,
       Cli.main Examples.cwd (Posix.resolve Examples.cwd) Posix.dirname
         Posix.join2 Examples.sample 6
         (Cli.MkOptions (Some "src/index.ts") (Some "src/a.ts")
            (Some "modify") (Some "foo,bar"))
       = Some (Cli.Printed
                 ([String "010"%char "File Change Analysis Result:";
                   "==========================="]
                  ++ printTree tree ""))
       /\ file tree
          = Posix.resolve Examples.cwd [Examples.cwd; "src/a.ts"]
       /\ changeType tree = "modify"
       /\ reason tree = None.
Proof.
  assert (He : "src/index.ts" <> "") by discriminate.
  assert (Hf : "src/a.ts" <> "") by discriminate.
  assert (Ht : "modify" <> "") by discriminate.
  split; [exact He |]. split; [exact Hf |]. split; [exact Ht |].
  split; [vm_compute; lia |].
  apply (main_prints_the_tree Examples.cwd (Posix.resolve Examples.cwd)
           Posix.dirname Posix.join2 Examples.sample 6
           "src/index.ts" "src/a.ts" "modify" (Some "foo,bar") He Hf Ht).
  vm_compute; lia.
Defined.

Example example_main_sample :
  Cli.main Examples.cwd (Posix.resolve Examples.cwd) Posix.dirname
    Posix.join2 Examples.sample 6
    (Cli.MkOptions (Some "src/index.ts") (Some "src/a.ts")
       (Some "modify") (Some "foo,bar"))
  = Some (Cli.Printed
            [String "010"%char "File Change Analysis Result:";
             "===========================";
             "/p/src/a.ts";
             "├─ Change: modify";
             "└─ Affected files:";
             "    ├─ /p/src/index.ts";
             "    ├─ ├─ Change: affected";
             "    ├─ ├─ Reason: Modified exports: foo, bar";
             "    └─ /p/src/lib/index.js";
             "    └─ ├─ Change: affected";
             "    └─ ├─ Reason: Modified exports: foo, bar"]).
Proof. vm_compute. reflexivity. Qed.

Example example_main_missing_option :
  Cli.main Examples.cwd (Posix.resolve Examples.cwd) Posix.dirname
    Posix.join2 Examples.sample 6
    (Cli.MkOptions (Some "src/index.ts") None (Some "modify") None)
  = Some (Cli.Exit 1 ["Missing required options"]).
Proof. vm_compute. reflexivity. Qed.

(** ** The graph and the report in terms of the project *)

Section EndToEnd.
Variable cwd : string.
Variable path_resolve : list string -> string.
Variable path_dirname : string -> string.
Variable path_join : string -> string -> string.
Variable fs : gmap string FsEntry.

Abbreviation build :=
  (buildDependencyTree cwd path_resolve path_dirname path_join fs).
Abbreviation parse := (read_and_parse fs).
Abbreviation edges :=
  (resolved_imports cwd path_resolve path_dirname path_join fs).
Abbreviation reachable :=
  (reachable cwd path_resolve path_dirname path_join fs).
Abbreviation run :=
  (analyzeFileChanges cwd path_resolve path_dirname path_join fs).

Lemma built_entry_of_key st entryFile k :
  wf st ->
  (forall k, k ∈ processedFiles st
             -> recorded cwd path_resolve path_dirname path_join fs st k) ->
  (forall k, k ∈ processedFiles st <-> reachable entryFile k) ->
  k ∈ JsMap.keys (dependencies st) ->
  reachable entryFile k
  /\ exists ast,
       parse k = Some ast
       /\ JsMap.get k (dependencies st)
          = Some (JsSet.of_list
                    (followed_imports cwd path_resolve path_dirname path_join
                       fs k ast)).
Proof.
  intros Hwf Hrec Hreach Hk.
  assert (Hp : k ∈ processedFiles st)
    by (destruct Hwf as (Hkd & _); by apply Hkd).
  split; [by apply Hreach |].
  pose proof (Hrec k Hp) as Hrk. unfold recorded in Hrk.
  destruct (parse k) as [ast|].
  - exists ast. split; [done |]. by destruct Hrk.
  - destruct Hrk as [Hd _]. apply JsMapFacts.get_None in Hd. done.
Qed.

(** X20. The edges of the constructed graph are exactly the resolved
    imports of the reachable files that could be read, parsed and
    traversed to the end; a file whose traversal throws has no edge. *)
Theorem graph_edges_are_the_resolved_imports fuel entryFile :
  size fs < fuel ->
  exists st,
    build fuel entryFile initial_state = Some st
    /\ forall f p,
         direct_dependent (dependencies st) f p
         <-> exists ast,
               reachable entryFile f
               /\ parse f = Some ast
               /\ traversal_throws ast = false
               /\ p ∈ edges f (import_sources ast).
Proof.
  intros Hfuel.
  destruct (build_from_initial_reachable cwd path_resolve path_dirname
              path_join fs fuel entryFile Hfuel)
    as (st & Hb & Hwf & Hrec & Hreach).
  exists st. split; [done |]. intros f p. split.
  - intros (ds & Hin & Hp).
    assert (Hk : f ∈ JsMap.keys (dependencies st)).
    { apply list_elem_of_fmap. by exists (f, ds). }
    destruct (built_entry_of_key st entryFile f Hwf Hrec Hreach Hk)
      as (Hf & ast & Hparse & Hget).
    rewrite (JsMapFacts.elem_of_get f ds) in Hget; [| apply Hwf | done].
    injection Hget as ->. rewrite JsSetFacts.elem_of_of_list in Hp.
    apply elem_of_followed_imports in Hp as [Hends Hp].
    by exists ast.
  - intros (ast & Hf & Hparse & Hends & Hp). apply Hreach in Hf.
    specialize (Hrec f Hf). unfold recorded in Hrec.
    rewrite Hparse in Hrec. destruct Hrec as (Hd & _).
    eexists. split; [by apply JsMapFacts.get_Some_elem_of |].
    apply JsSetFacts.elem_of_of_list.
    by apply elem_of_followed_imports.
Qed.

(** X21. Every node below the root of the result of a run is a file of
    the project that is reachable from the entry and could be read and
    parsed; the root itself is reported whether or not it is one. *)
Theorem report_lists_reachable_parsed_files
    fuel entryFile changedFile ct modifiedExports :
  size fs < fuel ->
  exists tree,
    run fuel entryFile changedFile ct modifiedExports = Some tree
    /\ file tree = changedFile
    /\ forall d, d ∈ descendants tree ->
                 reachable entryFile (file d) /\ is_Some (parse (file d)).
Proof.
  intros Hfuel.
  destruct (build_from_initial_reachable cwd path_resolve path_dirname
              path_join fs fuel entryFile Hfuel)
    as (st & Hb & Hwf & Hrec & Hreach).
  destruct (analyzeFileChanges_returns cwd path_resolve path_dirname
              path_join fs fuel entryFile changedFile ct modifiedExports
              Hfuel) as (st' & tree & v' & Hb' & Hi & Hrun).
  rewrite Hb in Hb'. injection Hb' as <-.
  exists tree. split; [done |].
  split; [by apply analyzeImpact_root in Hi as (? & _) |].
  apply analyzeImpact_files_are_keys in Hi. rewrite Forall_forall in Hi.
  intros d Hd.
  destruct (built_entry_of_key st entryFile (file d) Hwf Hrec Hreach
              (Hi d Hd)) as (Hf & ast & -> & _).
  split; [done | by eexists].
Qed.
End EndToEnd.

Lemma graph_edges_are_the_resolved_imports_witness :
  size Examples.faulty < 7
  /\ exists st,
       Examples.build Examples.faulty 7 "/p/index.ts" initial_state
       = Some st
       /\ forall f p,
            direct_dependent (dependencies st) f p
            <-> exists ast,
                  reachable Examples.cwd (Posix.resolve Examples.cwd)
                    Posix.dirname Posix.join2 Examples.faulty
                    "/p/index.ts" f
                  /\ read_and_parse Examples.faulty f = Some ast
                  /\ traversal_throws ast = false
                  /\ p ∈ resolved_imports Examples.cwd
                           (Posix.resolve Examples.cwd) Posix.dirname
                           Posix.join2 Examples.faulty f
                           (import_sources ast).
Proof.
  split; [vm_compute; lia |].
  apply (graph_edges_are_the_resolved_imports Examples.cwd
           (Posix.resolve Examples.cwd) Posix.dirname Posix.join2
           Examples.faulty 7 "/p/index.ts").
  vm_compute; lia.
Defined.

Lemma report_lists_reachable_parsed_files_witness :
  size Examples.sample < 6
  /\ exists tree,
       Examples.run Examples.sample 6 "/p/src/index.ts" "/p/src/a.ts"
         "modify" (Some ["foo"]) = Some tree
       /\ file tree = "/p/src/a.ts"
       /\ forall d, d ∈ descendants tree ->
            reachable Examples.cwd (Posix.resolve Examples.cwd)
              Posix.dirname Posix.join2 Examples.sample
              "/p/src/index.ts" (file d)
            /\ is_Some (read_and_parse Examples.sample (file d)).
Proof.
  split; [vm_compute; lia |].
  apply (report_lists_reachable_parsed_files Examples.cwd
           (Posix.resolve Examples.cwd) Posix.dirname Posix.join2
           Examples.sample 6 "/p/src/index.ts" "/p/src/a.ts" "modify"
           (Some ["foo"])).
  vm_compute; lia.
Defined.
